(** * Needleman-Wunsch global alignment: a shallow embedding of
    [needleman_wunsch.py] and the properties of its alignment engine.

    Python values are modelled as follows.
    - [int] is [Z] (Python integers are unbounded).
    - [str] is [list ascii]; a one-character string is an [ascii], so the
      symbols are the 8-bit characters.  Indexing a string or a list out of
      range raises [IndexError].
    - Indices are natural numbers: the code indexes with [i], [j], [i-1] and
      [j-1] only, the latter two where [i >= 1] and [j >= 1], so that no
      negative index ever reaches a list.
    - The two matrices are lists of rows ([list (list _)]).  The rows are
      built by a list comprehension, hence never aliased, so that the in-place
      update [matrix[i][j] = v] is the functional update of row [i].
    - A traceback cell is [None] or one of the strings ['D'], ['U'], ['L'].
    - Exceptions and the [while] loop of the traceback are explicit in the
      type [outcome]: a computation returns, raises, or exhausts the bound
      put on the number of iterations of the loop. *)

From Stdlib Require Import ZArith Ascii String Lia.
From stdpp Require Import base option list strings.

Local Open Scope Z_scope.

(** ** Outcomes of a Python computation *)

Inductive exn : Type :=
  | ValueError   (* raise ValueError("Both sequences must be non-empty") *)
  | IndexError.  (* list or string index out of range *)

Inductive outcome (A : Type) : Type :=
  | Return (a : A)
  | Raise (e : exn)
  | OutOfFuel.

Arguments Return {A} a.
Arguments Raise {A} e.
Arguments OutOfFuel {A}.

#[global] Instance outcome_ret : MRet outcome := @Return.

#[global] Instance outcome_bind : MBind outcome :=
  fun A B (f : A -> outcome B) (m : outcome A) =>
    match m with
    | Return a => f a
    | Raise e => Raise e
    | OutOfFuel => OutOfFuel
    end.

(** ** Python lists and strings *)

Abbreviation str := (list ascii).

(** [l[i]] for [i >= 0]. *)
Definition getitem {A : Type} (l : list A) (i : nat) : outcome A :=
  match l !! i with
  | Some x => Return x
  | None => Raise IndexError
  end.

(** [l[i] = v] for [i >= 0]. *)
Definition setitem {A : Type} (l : list A) (i : nat) (v : A) : outcome (list A) :=
  if (i <? length l)%nat then Return (<[i := v]> l) else Raise IndexError.

(** [m[i][j]]. *)
Definition getitem2 {A : Type} (m : list (list A)) (i j : nat) : outcome A :=
  row ← getitem m i; getitem row j.

(** [m[i][j] = v]: row [i] is fetched and updated in place. *)
Definition setitem2 {A : Type} (m : list (list A)) (i j : nat) (v : A)
  : outcome (list (list A)) :=
  row ← getitem m i; row' ← setitem row j v; setitem m i row'.

(** [range(lo, hi)]. *)
Definition range (lo hi : nat) : list nat := seq lo (hi - lo).

(** [for x in xs: body], the loop body acting on the state [St]. *)
Fixpoint for_each {St : Type} (xs : list nat) (body : nat -> St -> outcome St)
  (s : St) : outcome St :=
  match xs with
  | [] => Return s
  | x :: xs' => s' ← body x s; for_each xs' body s'
  end.

(** [max(a, b, c)] on integers. *)
Definition max3 (a b c : Z) : Z := Z.max (Z.max a b) c.

(** [c.upper()] on a one-character string.  Only the letters [a]..[z] are
    mapped; no other character has [A], [C], [G] or [T] as its upper case,
    which is all that the scoring function below observes. *)
Definition upper (c : ascii) : ascii :=
  let n := nat_of_ascii c in
  if ((97 <=? n) && (n <=? 122))%nat then ascii_of_nat (n - 32) else c.

(** ** The two classes *)

(** Attributes set by [NeedlemanWunsch.__init__]. *)
Record NeedlemanWunsch : Type := mkNeedlemanWunsch {
  match_score : Z;
  mismatch_score : Z;
  gap_penalty : Z
}.

(** Attributes of [NeedlemanWunschAdvanced]: those of the base class and the
    two penalties. *)
Record NeedlemanWunschAdvanced : Type := mkNeedlemanWunschAdvanced {
  super : NeedlemanWunsch;
  transition_penalty : Z;
  transversion_penalty : Z
}.

(** [NeedlemanWunschAdvanced.__init__]: the transition penalty is handed to
    the base class as its mismatch score. *)
Definition NeedlemanWunschAdvanced_init
  (match_score transition_penalty transversion_penalty gap_penalty : Z)
  : NeedlemanWunschAdvanced :=
  mkNeedlemanWunschAdvanced
    (mkNeedlemanWunsch match_score transition_penalty gap_penalty)
    transition_penalty transversion_penalty.

(** What the engine uses of [self]: the attributes of the base class and the
    method [_score_match_mismatch], which the subclass overrides. *)
Class Aligner (Self : Type) : Type := {
  base : Self -> NeedlemanWunsch;
  _score_match_mismatch : Self -> ascii -> ascii -> Z
}.

(** [NeedlemanWunsch._score_match_mismatch]. *)
Definition NeedlemanWunsch_score_match_mismatch
  (self : NeedlemanWunsch) (char1 char2 : ascii) : Z :=
  if Ascii.eqb char1 char2 then match_score self else mismatch_score self.

(** The set literal of [NeedlemanWunschAdvanced._score_match_mismatch]. *)
Definition transitions : list (ascii * ascii) :=
  [("A", "G"); ("G", "A"); ("C", "T"); ("T", "C")]%char.

Definition pair_eqb (p q : ascii * ascii) : bool :=
  Ascii.eqb (fst p) (fst q) && Ascii.eqb (snd p) (snd q).

(** [NeedlemanWunschAdvanced._score_match_mismatch]. *)
Definition NeedlemanWunschAdvanced_score_match_mismatch
  (self : NeedlemanWunschAdvanced) (char1 char2 : ascii) : Z :=
  if Ascii.eqb char1 char2 then match_score (super self)
  else
    let nucleotide_pair := (upper char1, upper char2) in
    if existsb (pair_eqb nucleotide_pair) transitions
    then transition_penalty self
    else transversion_penalty self.

#[global] Instance NeedlemanWunsch_Aligner : Aligner NeedlemanWunsch := {
  base := fun self => self;
  _score_match_mismatch := NeedlemanWunsch_score_match_mismatch
}.

#[global] Instance NeedlemanWunschAdvanced_Aligner
  : Aligner NeedlemanWunschAdvanced := {
  base := super;
  _score_match_mismatch := NeedlemanWunschAdvanced_score_match_mismatch
}.

(** ** The alignment engine *)

Inductive direction : Type :=
  | DIAGONAL  (* 'D' *)
  | UP        (* 'U' *)
  | LEFT.     (* 'L' *)

(** The dictionary returned by [align_with_matrices]. *)
Record alignment_result : Type := mkResult {
  seq1_aligned : str;
  seq2_aligned : str;
  score : Z;
  score_matrix : list (list Z);
  traceback_matrix : list (list (option direction))
}.

Definition gap_marker : ascii := "-"%char.

(** A string literal. *)
Definition lit (x : string) : str := list_ascii_of_string x.

Section Engine.
Context {Self : Type} `{!Aligner Self} (self : Self).

Definition _initialize_score_matrix (seq1_length seq2_length : nat)
  : outcome (list (list Z)) :=
  let matrix := replicate (seq1_length + 1) (replicate (seq2_length + 1) 0) in
  matrix ← for_each (range 1 (seq2_length + 1))
    (fun j matrix =>
       setitem2 matrix 0 j (Z.of_nat j * gap_penalty (base self)))
    matrix;
  matrix ← for_each (range 1 (seq1_length + 1))
    (fun i matrix =>
       setitem2 matrix i 0 (Z.of_nat i * gap_penalty (base self)))
    matrix;
  Return matrix.

(** The direction recorded for a cell, by the [if]/[elif]/[else] chain. *)
Definition record_direction (max_score diagonal_score up_score : Z)
  : direction :=
  if max_score =? diagonal_score then DIAGONAL
  else if max_score =? up_score then UP
  else LEFT.

(** The body of the two nested [for] loops; the state is the pair of the
    score matrix and the traceback matrix. *)
Definition fill_cell (seq1 seq2 : str) (i j : nat)
  (st : list (list Z) * list (list (option direction)))
  : outcome (list (list Z) * list (list (option direction))) :=
  let '(score_matrix, traceback_matrix) := st in
  char1 ← getitem seq1 (i - 1);
  char2 ← getitem seq2 (j - 1);
  diag ← getitem2 score_matrix (i - 1) (j - 1);
  let diagonal_score := diag + _score_match_mismatch self char1 char2 in
  up ← getitem2 score_matrix (i - 1) j;
  let up_score := up + gap_penalty (base self) in
  left ← getitem2 score_matrix i (j - 1);
  let left_score := left + gap_penalty (base self) in
  let max_score := max3 diagonal_score up_score left_score in
  score_matrix ← setitem2 score_matrix i j max_score;
  traceback_matrix ← setitem2 traceback_matrix i j
    (Some (record_direction max_score diagonal_score up_score));
  Return (score_matrix, traceback_matrix).

Definition _run_needleman_wunsch (seq1 seq2 : str)
  : outcome (list (list (option direction)) * list (list Z)) :=
  let seq1_length := length seq1 in
  let seq2_length := length seq2 in
  score_matrix ← _initialize_score_matrix seq1_length seq2_length;
  let traceback_matrix : list (list (option direction)) :=
    replicate (seq1_length + 1) (replicate (seq2_length + 1) None) in
  traceback_matrix ← for_each (range 1 (seq1_length + 1))
    (fun i traceback_matrix => setitem2 traceback_matrix i 0 (Some UP))
    traceback_matrix;
  traceback_matrix ← for_each (range 1 (seq2_length + 1))
    (fun j traceback_matrix => setitem2 traceback_matrix 0 j (Some LEFT))
    traceback_matrix;
  '(score_matrix, traceback_matrix) ←
    for_each (range 1 (seq1_length + 1))
      (fun i st =>
         for_each (range 1 (seq2_length + 1))
           (fun j st => fill_cell seq1 seq2 i j st) st)
      (score_matrix, traceback_matrix);
  Return (traceback_matrix, score_matrix).

(** The [while i > 0 or j > 0] loop; [fuel] bounds the number of
    iterations.  A cell that holds no direction matches no branch and
    leaves [i] and [j] as they are. *)
Fixpoint traceback_loop (fuel : nat)
  (traceback_matrix : list (list (option direction))) (seq1 seq2 : str)
  (i j : nat) (seq1_aligned seq2_aligned : list ascii)
  : outcome (list ascii * list ascii) :=
  if ((0 <? i) || (0 <? j))%nat then
    match fuel with
    | O => OutOfFuel
    | S fuel =>
        if (i =? 0)%nat then
          char2 ← getitem seq2 (j - 1);
          traceback_loop fuel traceback_matrix seq1 seq2 i (j - 1)
            (seq1_aligned ++ [gap_marker]) (seq2_aligned ++ [char2])
        else if (j =? 0)%nat then
          char1 ← getitem seq1 (i - 1);
          traceback_loop fuel traceback_matrix seq1 seq2 (i - 1) j
            (seq1_aligned ++ [char1]) (seq2_aligned ++ [gap_marker])
        else
          direction ← getitem2 traceback_matrix i j;
          match direction with
          | Some DIAGONAL =>
              char1 ← getitem seq1 (i - 1);
              char2 ← getitem seq2 (j - 1);
              traceback_loop fuel traceback_matrix seq1 seq2 (i - 1) (j - 1)
                (seq1_aligned ++ [char1]) (seq2_aligned ++ [char2])
          | Some UP =>
              char1 ← getitem seq1 (i - 1);
              traceback_loop fuel traceback_matrix seq1 seq2 (i - 1) j
                (seq1_aligned ++ [char1]) (seq2_aligned ++ [gap_marker])
          | Some LEFT =>
              char2 ← getitem seq2 (j - 1);
              traceback_loop fuel traceback_matrix seq1 seq2 i (j - 1)
                (seq1_aligned ++ [gap_marker]) (seq2_aligned ++ [char2])
          | None =>
              traceback_loop fuel traceback_matrix seq1 seq2 i j
                seq1_aligned seq2_aligned
          end
    end
  else Return (rev seq1_aligned, rev seq2_aligned).

Definition _get_aligned_sequences (fuel : nat)
  (traceback_matrix : list (list (option direction))) (seq1 seq2 : str)
  : outcome (str * str) :=
  traceback_loop fuel traceback_matrix seq1 seq2
    (length seq1) (length seq2) [] [].

(** [not seq] for a string. *)
Definition is_empty (s : str) : bool :=
  match s with [] => true | _ => false end.

Definition align (fuel : nat) (seq1 seq2 : str) : outcome (str * str * Z) :=
  if is_empty seq1 || is_empty seq2 then Raise ValueError
  else
    '(traceback_matrix, score_matrix) ← _run_needleman_wunsch seq1 seq2;
    '(aligned_seq1, aligned_seq2) ←
      _get_aligned_sequences fuel traceback_matrix seq1 seq2;
    alignment_score ← getitem2 score_matrix (length seq1) (length seq2);
    Return (aligned_seq1, aligned_seq2, alignment_score).

Definition align_with_matrices (fuel : nat) (seq1 seq2 : str)
  : outcome alignment_result :=
  '(traceback_matrix, score_matrix) ← _run_needleman_wunsch seq1 seq2;
  '(aligned_seq1, aligned_seq2) ←
    _get_aligned_sequences fuel traceback_matrix seq1 seq2;
  alignment_score ← getitem2 score_matrix (length seq1) (length seq2);
  Return (mkResult aligned_seq1 aligned_seq2 alignment_score
            score_matrix traceback_matrix).
End Engine.

(** ** Specification-level notions *)

(** One column of a global alignment: a symbol of each sequence, or a symbol
    of one sequence against a gap in the other. *)
Inductive column : Type :=
  | Both (x y : ascii)     (* x over y *)
  | GapInSeq2 (x : ascii)  (* x over a gap *)
  | GapInSeq1 (y : ascii). (* a gap over y *)

(** The two rows of an alignment as they are printed. *)
Definition top (c : column) : ascii :=
  match c with Both x _ | GapInSeq2 x => x | GapInSeq1 _ => gap_marker end.

Definition bottom (c : column) : ascii :=
  match c with Both _ y | GapInSeq1 y => y | GapInSeq2 _ => gap_marker end.

(** The symbols of each sequence that an alignment accounts for. *)
Fixpoint symbols1 (cols : list column) : str :=
  match cols with
  | [] => []
  | Both x _ :: cols' | GapInSeq2 x :: cols' => x :: symbols1 cols'
  | GapInSeq1 _ :: cols' => symbols1 cols'
  end.

Fixpoint symbols2 (cols : list column) : str :=
  match cols with
  | [] => []
  | Both _ y :: cols' | GapInSeq1 y :: cols' => y :: symbols2 cols'
  | GapInSeq2 _ :: cols' => symbols2 cols'
  end.

(** [cols] is a global alignment of [seq1] and [seq2]: it accounts for every
    symbol of both, in order. *)
Definition global_alignment (cols : list column) (seq1 seq2 : str) : Prop :=
  symbols1 cols = seq1 /\ symbols2 cols = seq2.

(** [s.replace('-', '')]. *)
Definition remove_gaps (s : str) : str :=
  filter (fun c => c <> gap_marker) s.

Section Specification.
Context {Self : Type} `{!Aligner Self} (self : Self).

Definition column_score (c : column) : Z :=
  match c with
  | Both x y => _score_match_mismatch self x y
  | GapInSeq2 _ | GapInSeq1 _ => gap_penalty (base self)
  end.

Definition alignment_score (cols : list column) : Z :=
  foldr (fun c acc => column_score c + acc) 0 cols.

Variables seq1 seq2 : str.

(** The symbol at an index, for indices in range. *)
Definition symbol (s : str) (k : nat) : ascii := default gap_marker (s !! k).

(** The three candidates of the recurrence at cell [(S i, S j)], from the
    values of its three neighbours. *)
Definition diagonal_candidate (i j : nat) (diag : Z) : Z :=
  diag + _score_match_mismatch self (symbol seq1 i) (symbol seq2 j).

Definition gap_candidate (neighbour : Z) : Z :=
  neighbour + gap_penalty (base self).

(** The solution of the recurrence, by recursion on the two indices. *)
Fixpoint cell (i : nat) : nat -> Z :=
  match i with
  | O => fun j => Z.of_nat j * gap_penalty (base self)
  | S i' =>
      fix row (j : nat) : Z :=
        match j with
        | O => Z.of_nat (S i') * gap_penalty (base self)
        | S j' =>
            max3 (diagonal_candidate i' j' (cell i' j'))
                 (gap_candidate (cell i' (S j')))
                 (gap_candidate (row j'))
        end
  end.

(** The direction the engine records at each cell. *)
Definition tcell (i j : nat) : option direction :=
  match i, j with
  | O, O => None
  | O, S _ => Some LEFT
  | S _, O => Some UP
  | S i', S j' =>
      let diagonal_score := diagonal_candidate i' j' (cell i' j') in
      let up_score := gap_candidate (cell i' j) in
      let left_score := gap_candidate (cell i j') in
      Some (record_direction (max3 diagonal_score up_score left_score)
              diagonal_score up_score)
  end.
End Specification.

Arguments cell : simpl never.

(** A matrix of [S n] rows of [S m] cells each. *)
Definition dims {A : Type} (n m : nat) (M : list (list A)) : Prop :=
  length M = S n /\ forall i row, M !! i = Some row -> length row = S m.

(** [M] has the right dimensions and agrees with [f] on the cells [filled]. *)
Definition mat_spec {A : Type} (n m : nat) (filled : nat -> nat -> Prop)
  (f : nat -> nat -> A) (M : list (list A)) : Prop :=
  dims n m M /\
  forall i j, (i <= n)%nat -> (j <= m)%nat -> filled i j ->
    getitem2 M i j = Return (f i j).

(** The cells known once rows [1..i-1] and the first [j-1] cells of row [i]
    have been filled, the first row and column being known from the start. *)
Definition filled_upto (i j a b : nat) : Prop :=
  (a = 0 \/ b = 0 \/ a < i \/ (a = i /\ b < j))%nat.

(** The invariant of the two nested loops that fill the matrices. *)
Definition fill_inv {Self : Type} `{!Aligner Self} (self : Self)
  (seq1 seq2 : str) (i j : nat)
  (st : list (list Z) * list (list (option direction))) : Prop :=
  mat_spec (length seq1) (length seq2) (filled_upto i j)
    (cell self seq1 seq2) (fst st) /\
  mat_spec (length seq1) (length seq2) (filled_upto i j)
    (tcell self seq1 seq2) (snd st).

(** ** The convenience function *)

(** The dictionary returned by [align_sequences]. *)
Record sequences_result : Type := mkSequencesResult {
  alignment : str * str;
  result_score : Z
}.

(** [align_sequences]; a keyword argument that the caller leaves out is
    [None] and takes the default of the signature. *)
Definition align_sequences (fuel : nat) (seq1 seq2 : str)
  (match_score mismatch_score gap_penalty : option Z)
  : outcome sequences_result :=
  let aligner :=
    mkNeedlemanWunsch (default 2 match_score) (default (-1) mismatch_score)
      (default (-2) gap_penalty) in
  '(aligned_seq1, aligned_seq2, score) ← align aligner fuel seq1 seq2;
  Return (mkSequencesResult (aligned_seq1, aligned_seq2) score).

(** ** Further specification-level notions *)

(** A matrix cell after the assignment [M[i][j] = v]. *)
Definition updated {A : Type} (f : nat -> nat -> A) (i j : nat) (v : A)
  (a b : nat) : A :=
  if ((a =? i) && (b =? j))%nat then v else f a b.

(** The score of [k] aligned pairs worth [best] each, the [|i - j|] symbols
    left over facing gaps. *)
Definition score_bound (best gap : Z) (i j : nat) : Z :=
  best * Z.of_nat (Nat.min i j) + gap * Z.of_nat (Nat.max i j - Nat.min i j).

(** A scoring method that does not depend on the order of its arguments. *)
Definition symmetric_scoring {Self : Type} `{!Aligner Self} (self : Self) : Prop :=
  forall x y, _score_match_mismatch self x y = _score_match_mismatch self y x.

(** * Properties *)

Local Open Scope nat_scope.

(** ** The outcome monad and the list operations *)

Lemma bind_Return {A B : Type} (a : A) (f : A -> outcome B) :
  (Return a ≫= f) = f a.
Proof. reflexivity. Qed.

Lemma getitem_Some {A : Type} (l : list A) i x :
  l !! i = Some x -> getitem l i = Return x.
Proof. unfold getitem. intros ->. reflexivity. Qed.

Lemma getitem_Return {A : Type} (l : list A) i x :
  getitem l i = Return x -> l !! i = Some x.
Proof. unfold getitem. destruct (l !! i); congruence. Qed.

Lemma setitem_lt {A : Type} (l : list A) i v :
  i < length l -> setitem l i v = Return (<[i := v]> l).
Proof.
  intros Hlt. unfold setitem.
  destruct (Nat.ltb_spec i (length l)) as [_ | Hge]; [reflexivity | lia].
Qed.

Lemma getitem2_Return {A : Type} (M : list (list A)) i j x :
  getitem2 M i j = Return x <->
  exists row, M !! i = Some row /\ row !! j = Some x.
Proof.
  unfold getitem2, getitem. split.
  - destruct (M !! i) as [row |] eqn:Hrow; simpl; [| congruence].
    destruct (row !! j) eqn:Hx; simpl; [| congruence].
    intros [= ->]. eauto.
  - intros (row & -> & Hx). simpl. rewrite Hx. reflexivity.
Qed.

Lemma setitem2_Return {A : Type} (M : list (list A)) i j v row :
  M !! i = Some row -> j < length row ->
  setitem2 M i j v = Return (<[i := <[j := v]> row]> M).
Proof.
  intros Hrow Hj. unfold setitem2.
  rewrite (getitem_Some _ _ _ Hrow), bind_Return.
  rewrite (setitem_lt _ _ _ Hj), bind_Return.
  apply setitem_lt. eapply lookup_lt_Some, Hrow.
Qed.

(** ** Matrices described cell by cell *)

Lemma dims_row {A : Type} n m (M : list (list A)) i :
  dims n m M -> i <= n -> exists row, M !! i = Some row /\ length row = S m.
Proof.
  intros [Hlen Hrows] Hi.
  destruct (lookup_lt_is_Some_2 M i) as [row Hrow]; [lia |].
  exists row. split; [assumption | eauto].
Qed.

Lemma dims_replicate {A : Type} n m (x : A) :
  dims n m (replicate (n + 1) (replicate (m + 1) x)).
Proof.
  split.
  - rewrite length_replicate. lia.
  - intros i row [-> _]%lookup_replicate. rewrite length_replicate. lia.
Qed.

Lemma mat_spec_replicate {A : Type} n m filled (f : nat -> nat -> A) x :
  (forall i j, i <= n -> j <= m -> filled i j -> f i j = x) ->
  mat_spec n m filled f (replicate (n + 1) (replicate (m + 1) x)).
Proof.
  intros Hf. split; [apply dims_replicate |].
  intros i j Hi Hj Hfill. apply getitem2_Return.
  exists (replicate (m + 1) x). split.
  - apply lookup_replicate_2. lia.
  - rewrite (Hf i j Hi Hj Hfill). apply lookup_replicate_2. lia.
Qed.

(** Writing [f i j] at [(i, j)] succeeds and adds that cell to the cells on
    which the matrix agrees with [f]. *)
Lemma mat_spec_set {A : Type} n m (filled filled' : nat -> nat -> Prop)
  (f : nat -> nat -> A) M i j v :
  mat_spec n m filled f M -> i <= n -> j <= m -> v = f i j ->
  (forall a b, a <= n -> b <= m -> filled' a b ->
     filled a b \/ (a = i /\ b = j)) ->
  exists M', setitem2 M i j v = Return M' /\ mat_spec n m filled' f M'.
Proof.
  intros [Hdims Hcells] Hi Hj -> Hfill.
  destruct (dims_row n m M i Hdims Hi) as (row & Hrow & Hlen).
  exists (<[i := <[j := f i j]> row]> M). split.
  { apply setitem2_Return; [assumption | lia]. }
  destruct Hdims as [HlenM Hrows]. split.
  - split; [rewrite length_insert; assumption |].
    intros a r Hr. destruct (decide (a = i)) as [-> | Hne].
    + rewrite list_lookup_insert_eq in Hr by lia.
      injection Hr as <-. rewrite length_insert. assumption.
    + rewrite list_lookup_insert_ne in Hr by congruence. eauto.
  - intros a b Ha Hb Hab. apply getitem2_Return.
    destruct (decide (a = i)) as [-> | Hne].
    + exists (<[j := f i j]> row). split.
      { apply list_lookup_insert_eq. lia. }
      destruct (decide (b = j)) as [-> | Hneb].
      * apply list_lookup_insert_eq. lia.
      * rewrite list_lookup_insert_ne by congruence.
        destruct (Hfill i b Ha Hb Hab) as [Hold | [_ ->]]; [| congruence].
        apply Hcells in Hold; [| assumption ..].
        apply getitem2_Return in Hold as (row' & Hrow' & Hb').
        congruence.
    + destruct (Hfill a b Ha Hb Hab) as [Hold | [-> _]]; [| congruence].
      apply Hcells in Hold; [| assumption ..].
      apply getitem2_Return in Hold as (row' & Hrow' & Hb').
      exists row'. split; [| assumption].
      rewrite list_lookup_insert_ne by congruence. assumption.
Qed.

Lemma mat_spec_weaken {A : Type} n m (filled filled' : nat -> nat -> Prop)
  (f : nat -> nat -> A) M :
  mat_spec n m filled f M ->
  (forall a b, a <= n -> b <= m -> filled' a b -> filled a b) ->
  mat_spec n m filled' f M.
Proof. intros [Hdims Hcells] Hsub. split; [assumption | eauto]. Qed.

(** ** [for] loops *)

Lemma for_each_range_inv {St : Type} (P : nat -> St -> Prop)
  (body : nat -> St -> outcome St) (lo hi : nat) (s : St) :
  lo <= hi -> P lo s ->
  (forall k s, lo <= k < hi -> P k s ->
     exists s', body k s = Return s' /\ P (S k) s') ->
  exists s', for_each (range lo hi) body s = Return s' /\ P hi s'.
Proof.
  unfold range. remember (hi - lo) as d eqn:Hd.
  revert lo s Hd. induction d as [| d IH]; intros lo s Hd Hle HP Hbody.
  - assert (hi = lo) as -> by lia. exists s. split; [reflexivity | assumption].
  - destruct (Hbody lo s) as (s1 & Hs1 & HP1); [lia | assumption |].
    destruct (IH (S lo) s1) as (s2 & Hs2 & HP2); [lia | lia | assumption | |].
    { intros k s' Hk. apply Hbody. lia. }
    exists s2. split; [| assumption].
    simpl. rewrite Hs1, bind_Return. assumption.
Qed.

(** ** The matrices built by the engine *)

Section Run.
Context {Self : Type} `{!Aligner Self} (self : Self).
Variables seq1 seq2 : str.

Let n := length seq1.
Let m := length seq2.
Let gap := gap_penalty (base self).

Lemma cell_row0 j : cell self seq1 seq2 0 j = (Z.of_nat j * gap)%Z.
Proof. reflexivity. Qed.

Lemma cell_col0 i : cell self seq1 seq2 i 0 = (Z.of_nat i * gap)%Z.
Proof. destruct i; reflexivity. Qed.

Lemma cell_interior i j :
  cell self seq1 seq2 (S i) (S j) =
  max3 (diagonal_candidate self seq1 seq2 i j (cell self seq1 seq2 i j))
       (gap_candidate self (cell self seq1 seq2 i (S j)))
       (gap_candidate self (cell self seq1 seq2 (S i) j)).
Proof. reflexivity. Qed.

Lemma symbol_lookup (s : str) k c : s !! k = Some c -> symbol s k = c.
Proof. unfold symbol. intros ->. reflexivity. Qed.

Lemma initialize_score_matrix_spec :
  exists S0, _initialize_score_matrix self n m = Return S0 /\
    mat_spec n m (fun a b => a = 0 \/ b = 0) (cell self seq1 seq2) S0.
Proof.
  unfold _initialize_score_matrix.
  destruct (for_each_range_inv
    (fun j M => mat_spec n m (fun a b => a = 0 /\ b < j) (cell self seq1 seq2) M)
    (fun j matrix => setitem2 matrix 0 j (Z.of_nat j * gap_penalty (base self))%Z)
    1 (m + 1) (replicate (n + 1) (replicate (m + 1) 0%Z)))
    as (M1 & HM1 & Hspec1).
  { lia. }
  { apply mat_spec_replicate. intros i j _ _ [-> Hj].
    assert (j = 0) as -> by lia. reflexivity. }
  { intros k M Hk HM. eapply mat_spec_set; [exact HM | lia | lia | | ].
    - reflexivity.
    - simpl. intros. lia. }
  rewrite HM1, bind_Return.
  destruct (for_each_range_inv
    (fun i M => mat_spec n m (fun a b => a = 0 \/ (b = 0 /\ a < i))
                  (cell self seq1 seq2) M)
    (fun i matrix => setitem2 matrix i 0 (Z.of_nat i * gap_penalty (base self))%Z)
    1 (n + 1) M1) as (M2 & HM2 & Hspec2).
  { lia. }
  { eapply mat_spec_weaken; [exact Hspec1 |]. simpl. intros. lia. }
  { intros k M Hk HM. eapply mat_spec_set; [exact HM | lia | lia | | ].
    - symmetry. apply cell_col0.
    - simpl. intros. lia. }
  rewrite HM2, bind_Return. exists M2. split; [reflexivity |].
  eapply mat_spec_weaken; [exact Hspec2 |]. simpl. intros. lia.
Qed.

Lemma initialize_traceback_matrix_spec :
  exists Tb1 Tb0,
    for_each (range 1 (n + 1))
      (fun i traceback_matrix => setitem2 traceback_matrix i 0 (Some UP))
      (replicate (n + 1) (replicate (m + 1) None)) = Return Tb1 /\
    for_each (range 1 (m + 1))
      (fun j traceback_matrix => setitem2 traceback_matrix 0 j (Some LEFT))
      Tb1 = Return Tb0 /\
    mat_spec n m (fun a b => a = 0 \/ b = 0) (tcell self seq1 seq2) Tb0.
Proof.
  destruct (for_each_range_inv
    (fun i M => mat_spec n m (fun a b => b = 0 /\ a < i) (tcell self seq1 seq2) M)
    (fun i traceback_matrix => setitem2 traceback_matrix i 0 (Some UP))
    1 (n + 1) (replicate (n + 1) (replicate (m + 1) None)))
    as (M1 & HM1 & Hspec1).
  { lia. }
  { apply mat_spec_replicate. intros i j _ _ [-> Hi].
    assert (i = 0) as -> by lia. reflexivity. }
  { intros k M Hk HM. eapply mat_spec_set; [exact HM | lia | lia | | ].
    - destruct k; [lia | reflexivity].
    - simpl. intros. lia. }
  destruct (for_each_range_inv
    (fun j M => mat_spec n m (fun a b => b = 0 \/ (a = 0 /\ b < j))
                  (tcell self seq1 seq2) M)
    (fun j traceback_matrix => setitem2 traceback_matrix 0 j (Some LEFT))
    1 (m + 1) M1) as (M2 & HM2 & Hspec2).
  { lia. }
  { eapply mat_spec_weaken; [exact Hspec1 |]. simpl. intros. lia. }
  { intros k M Hk HM. eapply mat_spec_set; [exact HM | lia | lia | | ].
    - destruct k; [lia | reflexivity].
    - simpl. intros. lia. }
  exists M1, M2. split; [assumption |]. split; [assumption |].
  eapply mat_spec_weaken; [exact Hspec2 |]. simpl. intros. lia.
Qed.

Lemma fill_cell_spec i j st :
  1 <= i <= n -> 1 <= j <= m -> fill_inv self seq1 seq2 i j st ->
  exists st', fill_cell self seq1 seq2 i j st = Return st' /\
              fill_inv self seq1 seq2 i (S j) st'.
Proof.
  intros Hi Hj [HS HT]. destruct st as [Sc Tb]. simpl in HS, HT.
  destruct i as [| i]; [lia |]. destruct j as [| j]; [lia |].
  unfold fill_cell. rewrite !Nat.sub_succ, !Nat.sub_0_r.
  destruct (lookup_lt_is_Some_2 seq1 i) as [c1 Hc1]; [fold n; lia |].
  destruct (lookup_lt_is_Some_2 seq2 j) as [c2 Hc2]; [fold m; lia |].
  rewrite (getitem_Some _ _ _ Hc1), bind_Return.
  rewrite (getitem_Some _ _ _ Hc2), bind_Return.
  destruct HS as [HdS HcS].
  rewrite (HcS i j), bind_Return by (unfold filled_upto; lia).
  rewrite (HcS i (S j)), bind_Return by (unfold filled_upto; lia).
  rewrite (HcS (S i) j), bind_Return by (unfold filled_upto; lia).
  match goal with
  | |- context [setitem2 Sc ?a ?b ?v] =>
      destruct (mat_spec_set n m (filled_upto a b) (filled_upto a (S b))
                  (cell self seq1 seq2) Sc a b v)
        as (Sc' & HS' & HspecS'); [split; assumption | lia | lia | | | ]
  end.
  { rewrite cell_interior. unfold diagonal_candidate, gap_candidate.
    rewrite (symbol_lookup _ _ _ Hc1), (symbol_lookup _ _ _ Hc2).
    reflexivity. }
  { unfold filled_upto. intros. lia. }
  rewrite HS', bind_Return.
  match goal with
  | |- context [setitem2 Tb ?a ?b ?v] =>
      destruct (mat_spec_set n m (filled_upto a b) (filled_upto a (S b))
                  (tcell self seq1 seq2) Tb a b v)
        as (Tb' & HT' & HspecT'); [assumption | lia | lia | | | ]
  end.
  { unfold tcell.
    unfold diagonal_candidate, gap_candidate.
    rewrite (symbol_lookup _ _ _ Hc1), (symbol_lookup _ _ _ Hc2).
    reflexivity. }
  { unfold filled_upto. intros. lia. }
  rewrite HT', bind_Return.
  exists (Sc', Tb'). split; [reflexivity |]. split; assumption.
Qed.

(** The engine returns, and its two matrices are the solution of the
    recurrence and the directions that go with it. *)
Lemma run_needleman_wunsch_spec :
  exists Tb Sc, _run_needleman_wunsch self seq1 seq2 = Return (Tb, Sc) /\
    mat_spec n m (fun _ _ => True) (cell self seq1 seq2) Sc /\
    mat_spec n m (fun _ _ => True) (tcell self seq1 seq2) Tb.
Proof.
  unfold _run_needleman_wunsch. fold n m.
  destruct initialize_score_matrix_spec as (Sc0 & HS0 & HspecS0).
  rewrite HS0, bind_Return.
  destruct initialize_traceback_matrix_spec as (Tb1 & Tb0 & HT1 & HT0 & HspecT0).
  rewrite HT1, bind_Return, HT0, bind_Return.
  destruct (for_each_range_inv (fun i st => fill_inv self seq1 seq2 i 1 st)
    (fun i st => for_each (range 1 (m + 1))
                   (fun j st => fill_cell self seq1 seq2 i j st) st)
    1 (n + 1) (Sc0, Tb0)) as ([Sc Tb] & Hrun & HS & HT).
  { lia. }
  { split; simpl; (eapply mat_spec_weaken; [eassumption |]);
      unfold filled_upto; intros; lia. }
  { intros i st Hi Hinv.
    destruct (for_each_range_inv (fun j st => fill_inv self seq1 seq2 i j st)
      (fun j st => fill_cell self seq1 seq2 i j st) 1 (m + 1) st)
      as (st' & Hrow & HS' & HT').
    - lia.
    - assumption.
    - intros j st' Hj. apply fill_cell_spec; lia.
    - exists st'. split; [assumption |].
      split; (eapply mat_spec_weaken; [eassumption |]);
        unfold filled_upto; intros; lia. }
  rewrite Hrun, bind_Return. exists Tb, Sc. split; [reflexivity |].
  split; (eapply mat_spec_weaken; [eassumption |]);
    unfold filled_upto; simpl; intros; lia.
Qed.
End Run.

(** ** Alignments and their scores *)

Lemma symbols1_app cols cols' :
  symbols1 (cols ++ cols') = symbols1 cols ++ symbols1 cols'.
Proof.
  induction cols as [| [x y | x | y] cols IH]; simpl; congruence.
Qed.

Lemma symbols2_app cols cols' :
  symbols2 (cols ++ cols') = symbols2 cols ++ symbols2 cols'.
Proof.
  induction cols as [| [x y | x | y] cols IH]; simpl; congruence.
Qed.

Lemma symbols1_length cols : length (symbols1 cols) <= length cols.
Proof. induction cols as [| [x y | x | y] cols IH]; simpl; lia. Qed.

Lemma symbols2_length cols : length (symbols2 cols) <= length cols.
Proof. induction cols as [| [x y | x | y] cols IH]; simpl; lia. Qed.

Lemma symbols_length cols :
  length cols <= length (symbols1 cols) + length (symbols2 cols).
Proof. induction cols as [| [x y | x | y] cols IH]; simpl; lia. Qed.

(** Removing the gap markers from a printed row gives the symbols the
    alignment accounts for, with their own gap markers removed. *)
Lemma remove_gaps_cons c (s : str) :
  remove_gaps (c :: s) =
  if decide (c = gap_marker) then remove_gaps s else c :: remove_gaps s.
Proof.
  unfold remove_gaps. rewrite filter_cons.
  destruct (decide (c <> gap_marker)), (decide (c = gap_marker));
    first [reflexivity | contradiction].
Qed.

Lemma remove_gaps_top cols :
  remove_gaps (map top cols) = remove_gaps (symbols1 cols).
Proof.
  induction cols as [| [x y | x | y] cols IH];
    cbn [map top symbols1]; rewrite ?remove_gaps_cons, ?IH;
    reflexivity.
Qed.

Lemma remove_gaps_bottom cols :
  remove_gaps (map bottom cols) = remove_gaps (symbols2 cols).
Proof.
  induction cols as [| [x y | x | y] cols IH];
    cbn [map bottom symbols2]; rewrite ?remove_gaps_cons, ?IH;
    reflexivity.
Qed.

Lemma remove_gaps_id (s : str) :
  gap_marker ∉ s -> remove_gaps s = s.
Proof.
  induction s as [| c s IH]; intros Hnot; [reflexivity |].
  apply not_elem_of_cons in Hnot as [Hne Hnot].
  rewrite remove_gaps_cons, IH by assumption.
  destruct (decide (c = gap_marker)); congruence.
Qed.

(** A column of an alignment of gap-free sequences never shows two gaps. *)
Lemma no_gap_gap_column cols k :
  gap_marker ∉ symbols1 cols -> gap_marker ∉ symbols2 cols ->
  ~ (map top cols !! k = Some gap_marker /\
     map bottom cols !! k = Some gap_marker).
Proof.
  revert k. induction cols as [| c cols IH]; intros k H1 H2 [Ht Hb].
  - discriminate Ht.
  - destruct k as [| k].
    + simpl in Ht, Hb. injection Ht as Ht. injection Hb as Hb.
      destruct c as [x y | x | y]; simpl in *.
      * apply H1. rewrite Ht. left.
      * apply H1. rewrite Ht. left.
      * apply H2. rewrite Hb. left.
    + apply (IH k); [| | split; assumption].
      * intros Hin. apply H1.
        destruct c as [x y | x | y]; simpl; [right | right |]; assumption.
      * intros Hin. apply H2.
        destruct c as [x y | x | y]; simpl; [right | | right]; assumption.
Qed.

Section Optimality.
Context {Self : Type} `{!Aligner Self} (self : Self).

Lemma alignment_score_app cols cols' :
  alignment_score self (cols ++ cols') =
  (alignment_score self cols + alignment_score self cols')%Z.
Proof.
  unfold alignment_score. induction cols as [| c cols IH]; simpl; [reflexivity |].
  rewrite IH. lia.
Qed.

Lemma alignment_score_snoc cols c :
  alignment_score self (cols ++ [c]) =
  (alignment_score self cols + column_score self c)%Z.
Proof. rewrite alignment_score_app. simpl. lia. Qed.

Lemma cell_ge_up seq1 seq2 i j :
  (gap_candidate self (cell self seq1 seq2 i j)
   <= cell self seq1 seq2 (S i) j)%Z.
Proof.
  unfold gap_candidate. destruct j as [| j].
  - rewrite !cell_col0. lia.
  - rewrite cell_interior. unfold max3, gap_candidate. lia.
Qed.

Lemma cell_ge_left seq1 seq2 i j :
  (gap_candidate self (cell self seq1 seq2 i j)
   <= cell self seq1 seq2 i (S j))%Z.
Proof.
  unfold gap_candidate. destruct i as [| i].
  - rewrite !cell_row0. lia.
  - rewrite cell_interior. unfold max3, gap_candidate. lia.
Qed.

Lemma cell_ge_diagonal seq1 seq2 i j :
  (diagonal_candidate self seq1 seq2 i j (cell self seq1 seq2 i j)
   <= cell self seq1 seq2 (S i) (S j))%Z.
Proof. rewrite cell_interior. unfold max3. lia. Qed.

Lemma symbol_app_l (s t : str) k : k < length s -> symbol (s ++ t) k = symbol s k.
Proof. intros Hk. unfold symbol. rewrite lookup_app_l by assumption. reflexivity. Qed.

Lemma symbol_snoc (s : str) c : symbol (s ++ [c]) (length s) = c.
Proof. unfold symbol. rewrite list_lookup_middle by reflexivity. reflexivity. Qed.

(** A cell depends only on the prefixes of the sequences it is about. *)
Lemma cell_prefix s1 t1 s2 t2 i j :
  i <= length s1 -> j <= length s2 ->
  cell self (s1 ++ t1) (s2 ++ t2) i j = cell self s1 s2 i j.
Proof.
  revert j. induction i as [| i IHi]; intros j Hi Hj.
  - rewrite !cell_row0. reflexivity.
  - induction j as [| j IHj].
    + rewrite !cell_col0. reflexivity.
    + rewrite !cell_interior. unfold diagonal_candidate.
      rewrite IHi, IHi, IHj by lia.
      rewrite !symbol_app_l by lia. reflexivity.
Qed.

(** No alignment scores more than the cell of its two sequences. *)
Lemma alignment_score_le_cell cols :
  (alignment_score self cols
   <= cell self (symbols1 cols) (symbols2 cols)
        (length (symbols1 cols)) (length (symbols2 cols)))%Z.
Proof.
  induction cols as [| c cols IH] using rev_ind.
  - simpl. rewrite cell_row0. lia.
  - rewrite alignment_score_snoc, symbols1_app, symbols2_app.
    set (p1 := symbols1 cols) in *. set (p2 := symbols2 cols) in *.
    destruct c as [x y | x | y]; simpl.
    + rewrite !length_app, !Nat.add_1_r.
      etransitivity; [| apply cell_ge_diagonal].
      unfold diagonal_candidate.
      rewrite cell_prefix, !symbol_snoc by lia. lia.
    + rewrite app_nil_r, length_app, Nat.add_1_r.
      etransitivity; [| apply cell_ge_up]. unfold gap_candidate.
      rewrite <- (app_nil_r p2) at 1.
      rewrite cell_prefix by lia. lia.
    + rewrite app_nil_r, length_app, Nat.add_1_r.
      etransitivity; [| apply cell_ge_left]. unfold gap_candidate.
      rewrite <- (app_nil_r p1) at 1.
      rewrite cell_prefix by lia. lia.
Qed.
End Optimality.

(** ** The traceback *)

Section Traceback.
Context {Self : Type} `{!Aligner Self} (self : Self).
Variables seq1 seq2 : str.
Variable Tb : list (list (option direction)).

Let n := length seq1.
Let m := length seq2.

Hypothesis HTb : mat_spec n m (fun _ _ => True) (tcell self seq1 seq2) Tb.

(** From cell [(i, j)] the loop returns, having prepended to what it had
    collected the columns of an alignment of the first [i] symbols of
    [seq1] with the first [j] symbols of [seq2], of score [cell i j]. *)
Lemma traceback_loop_spec fuel : forall i j a1 a2,
  i <= n -> j <= m -> i + j <= fuel ->
  exists cols,
    traceback_loop fuel Tb seq1 seq2 i j a1 a2 =
      Return (map top cols ++ rev a1, map bottom cols ++ rev a2) /\
    symbols1 cols = take i seq1 /\
    symbols2 cols = take j seq2 /\
    alignment_score self cols = cell self seq1 seq2 i j.
Proof.
  induction fuel as [| fuel IH]; intros i j a1 a2 Hi Hj Hfuel.
  { assert (i = 0) as -> by lia. assert (j = 0) as -> by lia.
    exists []. simpl. auto. }
  destruct i as [| i], j as [| j].
  - exists []. simpl. auto.
  - (* row 0: forced left *)
    destruct (lookup_lt_is_Some_2 seq2 j) as [c2 Hc2]; [fold m; lia |].
    destruct (IH 0 j (a1 ++ [gap_marker]) (a2 ++ [c2]))
      as (cols & Hloop & H1 & H2 & Hscore); [lia | lia | lia |].
    exists (cols ++ [GapInSeq1 c2]).
    cbn [traceback_loop Nat.ltb Nat.leb orb Nat.eqb].
    rewrite Nat.sub_succ, Nat.sub_0_r.
    rewrite (getitem_Some _ _ _ Hc2), bind_Return, Hloop.
    rewrite !rev_unit, !map_app, <- !app_assoc. split; [reflexivity |].
    rewrite symbols1_app, symbols2_app, alignment_score_snoc, H1, H2, Hscore.
    rewrite (take_S_r _ _ _ Hc2), !cell_row0. simpl.
    rewrite ?app_nil_r. repeat split. lia.
  - (* column 0: forced up *)
    destruct (lookup_lt_is_Some_2 seq1 i) as [c1 Hc1]; [fold n; lia |].
    destruct (IH i 0 (a1 ++ [c1]) (a2 ++ [gap_marker]))
      as (cols & Hloop & H1 & H2 & Hscore); [lia | lia | lia |].
    exists (cols ++ [GapInSeq2 c1]).
    cbn [traceback_loop Nat.ltb Nat.leb orb Nat.eqb].
    rewrite Nat.sub_succ, Nat.sub_0_r.
    rewrite (getitem_Some _ _ _ Hc1), bind_Return, Hloop.
    rewrite !rev_unit, !map_app, <- !app_assoc. split; [reflexivity |].
    rewrite symbols1_app, symbols2_app, alignment_score_snoc, H1, H2, Hscore.
    rewrite (take_S_r _ _ _ Hc1), !cell_col0. simpl.
    rewrite ?app_nil_r. repeat split. lia.
  - (* interior: follow the recorded direction *)
    destruct (lookup_lt_is_Some_2 seq1 i) as [c1 Hc1]; [fold n; lia |].
    destruct (lookup_lt_is_Some_2 seq2 j) as [c2 Hc2]; [fold m; lia |].
    cbn [traceback_loop Nat.ltb Nat.leb orb Nat.eqb].
    rewrite !Nat.sub_succ, !Nat.sub_0_r.
    destruct HTb as [_ Hcells].
    rewrite (Hcells (S i) (S j)), bind_Return by (trivial || lia).
    rewrite !(getitem_Some _ _ _ Hc1), !(getitem_Some _ _ _ Hc2), !bind_Return.
    cbn [tcell]. rewrite <- cell_interior.
    unfold record_direction, diagonal_candidate, gap_candidate.
    rewrite (symbol_lookup _ _ _ Hc1), (symbol_lookup _ _ _ Hc2).
    destruct (Z.eqb_spec (cell self seq1 seq2 (S i) (S j))
                (cell self seq1 seq2 i j + _score_match_mismatch self c1 c2))
      as [Hd | Hd];
      [| destruct (Z.eqb_spec (cell self seq1 seq2 (S i) (S j))
                    (cell self seq1 seq2 i (S j) + gap_penalty (base self)))
           as [Hu | Hu]].
    + destruct (IH i j (a1 ++ [c1]) (a2 ++ [c2]))
        as (cols & Hloop & H1 & H2 & Hscore); [lia | lia | lia |].
      exists (cols ++ [Both c1 c2]). rewrite Hloop.
      rewrite !rev_unit, !map_app, <- !app_assoc. split; [reflexivity |].
      rewrite symbols1_app, symbols2_app, alignment_score_snoc, H1, H2, Hscore.
      rewrite (take_S_r _ _ _ Hc1), (take_S_r _ _ _ Hc2). simpl.
      repeat split. lia.
    + destruct (IH i (S j) (a1 ++ [c1]) (a2 ++ [gap_marker]))
        as (cols & Hloop & H1 & H2 & Hscore); [lia | lia | lia |].
      exists (cols ++ [GapInSeq2 c1]). rewrite Hloop.
      rewrite !rev_unit, !map_app, <- !app_assoc. split; [reflexivity |].
      rewrite symbols1_app, symbols2_app, alignment_score_snoc, H1, H2, Hscore.
      rewrite (take_S_r _ _ _ Hc1). simpl.
      rewrite ?app_nil_r. repeat split. lia.
    + destruct (IH (S i) j (a1 ++ [gap_marker]) (a2 ++ [c2]))
        as (cols & Hloop & H1 & H2 & Hscore); [lia | lia | lia |].
      exists (cols ++ [GapInSeq1 c2]). rewrite Hloop.
      rewrite !rev_unit, !map_app, <- !app_assoc. split; [reflexivity |].
      rewrite symbols1_app, symbols2_app, alignment_score_snoc, H1, H2, Hscore.
      rewrite (take_S_r _ _ _ Hc2). simpl.
      rewrite ?app_nil_r. repeat split.
      pose proof (cell_interior self seq1 seq2 i j) as Hcell.
      unfold diagonal_candidate, gap_candidate, max3 in Hcell.
      rewrite (symbol_lookup _ _ _ Hc1), (symbol_lookup _ _ _ Hc2) in Hcell.
      lia.
Qed.

Lemma get_aligned_sequences_spec fuel :
  n + m <= fuel ->
  exists cols,
    _get_aligned_sequences fuel Tb seq1 seq2 =
      Return (map top cols, map bottom cols) /\
    global_alignment cols seq1 seq2 /\
    alignment_score self cols = cell self seq1 seq2 n m.
Proof.
  intros Hfuel. unfold _get_aligned_sequences.
  destruct (traceback_loop_spec fuel (length seq1) (length seq2) [] [])
    as (cols & Hloop & H1 & H2 & Hscore); [fold n; lia | fold m; lia | fold n m; lia |].
  exists cols. rewrite Hloop. simpl. rewrite !app_nil_r.
  split; [reflexivity |]. split; [| assumption].
  unfold global_alignment. rewrite H1, H2.
  split; apply firstn_all.
Qed.
End Traceback.

(** ** More iterations than needed change nothing *)

Ltac bind_case H :=
  match type of H with
  | (?c ≫= _) = Return _ =>
      let E := fresh "E" in
      destruct c eqn:E; [rewrite bind_Return in H |- * | discriminate H ..]
  end.

Lemma traceback_loop_mono Tb (seq1 seq2 : str) fuel :
  forall fuel' i j a1 a2 r, fuel <= fuel' ->
    traceback_loop fuel Tb seq1 seq2 i j a1 a2 = Return r ->
    traceback_loop fuel' Tb seq1 seq2 i j a1 a2 = Return r.
Proof.
  induction fuel as [| fuel IH]; intros fuel' i j a1 a2 r Hle Hrun.
  - destruct fuel'; cbn [traceback_loop] in *;
      destruct ((0 <? i) || (0 <? j)); congruence.
  - destruct fuel' as [| fuel']; [lia |].
    cbn [traceback_loop] in *.
    destruct ((0 <? i) || (0 <? j)); [| assumption].
    destruct (i =? 0); [| destruct (j =? 0)].
    + bind_case Hrun. apply IH; [lia | assumption].
    + bind_case Hrun. apply IH; [lia | assumption].
    + bind_case Hrun.
      match goal with d : option direction |- _ => destruct d as [[| |] |] end.
      * bind_case Hrun. bind_case Hrun. apply IH; [lia | assumption].
      * bind_case Hrun. apply IH; [lia | assumption].
      * bind_case Hrun. apply IH; [lia | assumption].
      * apply IH; [lia | assumption].
Qed.

Lemma align_mono {Self : Type} `{!Aligner Self} (self : Self)
  fuel fuel' (seq1 seq2 : str) r :
  fuel <= fuel' ->
  align self fuel seq1 seq2 = Return r -> align self fuel' seq1 seq2 = Return r.
Proof.
  intros Hle. unfold align, _get_aligned_sequences.
  destruct (is_empty seq1 || is_empty seq2); [discriminate |].
  intros Hrun. bind_case Hrun.
  match goal with p : (_ * _)%type |- _ => destruct p as [Tb Sc] end.
  cbn beta iota in *.
  destruct (traceback_loop fuel Tb seq1 seq2 (length seq1) (length seq2) [] [])
    as [aligned | |] eqn:Hloop; [| discriminate Hrun ..].
  rewrite (traceback_loop_mono _ _ _ _ _ _ _ _ _ _ Hle Hloop). assumption.
Qed.

(** ** The engine as a whole *)

Lemma align_spec {Self : Type} `{!Aligner Self} (self : Self)
  fuel (seq1 seq2 : str) :
  seq1 <> [] -> seq2 <> [] -> length seq1 + length seq2 <= fuel ->
  exists Tb Sc cols,
    _run_needleman_wunsch self seq1 seq2 = Return (Tb, Sc) /\
    getitem2 Sc (length seq1) (length seq2) =
      Return (cell self seq1 seq2 (length seq1) (length seq2)) /\
    align self fuel seq1 seq2 =
      Return (map top cols, map bottom cols,
              cell self seq1 seq2 (length seq1) (length seq2)) /\
    global_alignment cols seq1 seq2 /\
    alignment_score self cols =
      cell self seq1 seq2 (length seq1) (length seq2).
Proof.
  intros Hne1 Hne2 Hfuel.
  destruct (run_needleman_wunsch_spec self seq1 seq2)
    as (Tb & Sc & Hrun & HSc & HTb).
  destruct (get_aligned_sequences_spec self seq1 seq2 Tb HTb fuel Hfuel)
    as (cols & Hwalk & Halign & Hscore).
  assert (Hcell : getitem2 Sc (length seq1) (length seq2) =
            Return (cell self seq1 seq2 (length seq1) (length seq2))).
  { destruct HSc as [_ Hcells]. apply Hcells; trivial. }
  exists Tb, Sc, cols. repeat split; try assumption; try apply Halign.
  unfold align.
  destruct seq1 as [| c1 s1]; [congruence |].
  destruct seq2 as [| c2 s2]; [congruence |].
  cbn [is_empty orb].
  rewrite Hrun, bind_Return. cbn beta iota.
  rewrite Hwalk, bind_Return. cbn beta iota.
  rewrite Hcell, bind_Return. reflexivity.
Qed.

Lemma not_empty_cases (seq1 seq2 : str) :
  is_empty seq1 || is_empty seq2 = true <-> seq1 = [] \/ seq2 = [].
Proof.
  destruct seq1, seq2; simpl; split; intros H;
    try reflexivity; try discriminate H; auto;
    destruct H; discriminate.
Qed.

(** * The claims *)

(** C1. For non-empty sequences and any scoring policy, the score returned by
    [align], which is the cell [score_matrix[n][m]], is the maximum of the
    scores of the global alignments of the two sequences: the alignment that
    [align] returns is a global alignment with that score, and no global
    alignment scores more. *)
Theorem align_score_is_optimal {Self : Type} `{!Aligner Self} (self : Self)
  (fuel : nat) (seq1 seq2 : str) :
  seq1 <> [] -> seq2 <> [] -> length seq1 + length seq2 <= fuel ->
  exists aligned1 aligned2 score Tb Sc,
    align self fuel seq1 seq2 = Return (aligned1, aligned2, score) /\
    _run_needleman_wunsch self seq1 seq2 = Return (Tb, Sc) /\
    getitem2 Sc (length seq1) (length seq2) = Return score /\
    (exists cols, global_alignment cols seq1 seq2 /\
       aligned1 = map top cols /\ aligned2 = map bottom cols /\
       alignment_score self cols = score) /\
    (forall cols, global_alignment cols seq1 seq2 ->
       (alignment_score self cols <= score)%Z).
Proof.
  intros Hne1 Hne2 Hfuel.
  destruct (align_spec self fuel seq1 seq2 Hne1 Hne2 Hfuel)
    as (Tb & Sc & cols & Hrun & Hcell & Halign & Hglobal & Hscore).
  exists (map top cols), (map bottom cols),
    (cell self seq1 seq2 (length seq1) (length seq2)), Tb, Sc.
  repeat split; try assumption.
  - exists cols. auto.
  - intros cols' [H1 H2]. subst seq1 seq2. apply alignment_score_le_cell.
Qed.

Lemma align_score_is_optimal_witness :
  exists aligned1 aligned2 score Tb Sc,
    align (mkNeedlemanWunsch 1 (-1) (-2)) 7 (lit "WHY") (lit "WHAT") =
      Return (aligned1, aligned2, score) /\
    _run_needleman_wunsch (mkNeedlemanWunsch 1 (-1) (-2)) (lit "WHY") (lit "WHAT") =
      Return (Tb, Sc) /\
    getitem2 Sc 3 4 = Return score /\
    (exists cols, global_alignment cols (lit "WHY") (lit "WHAT") /\
       aligned1 = map top cols /\ aligned2 = map bottom cols /\
       alignment_score (mkNeedlemanWunsch 1 (-1) (-2)) cols = score) /\
    (forall cols, global_alignment cols (lit "WHY") (lit "WHAT") ->
       (alignment_score (mkNeedlemanWunsch 1 (-1) (-2)) cols <= score)%Z).
Proof.
  apply (align_score_is_optimal (mkNeedlemanWunsch 1 (-1) (-2)) 7
           (lit "WHY") (lit "WHAT")).
  - discriminate.
  - discriminate.
  - simpl. lia.
Defined.

(** C2. The score matrix has [n+1] rows of [m+1] cells; its origin is 0, its
    first row and first column are the multiples of the gap penalty, and
    every interior cell is the maximum ([Z.max]) of the three candidates
    computed from its diagonal, upper and left neighbours.  (This holds for all
    sequences, the non-empty ones in particular.) *)
Theorem score_matrix_recurrence {Self : Type} `{!Aligner Self} (self : Self)
  (seq1 seq2 : str) :
  exists Tb Sc,
    _run_needleman_wunsch self seq1 seq2 = Return (Tb, Sc) /\
    length Sc = length seq1 + 1 /\
    Forall (fun row => length row = length seq2 + 1) Sc /\
    getitem2 Sc 0 0 = Return 0%Z /\
    (forall j, 1 <= j <= length seq2 ->
       getitem2 Sc 0 j = Return (Z.of_nat j * gap_penalty (base self))%Z) /\
    (forall i, 1 <= i <= length seq1 ->
       getitem2 Sc i 0 = Return (Z.of_nat i * gap_penalty (base self))%Z) /\
    (forall i j, 1 <= i <= length seq1 -> 1 <= j <= length seq2 ->
       exists char1 char2 diag up left,
         getitem seq1 (i - 1) = Return char1 /\
         getitem seq2 (j - 1) = Return char2 /\
         getitem2 Sc (i - 1) (j - 1) = Return diag /\
         getitem2 Sc (i - 1) j = Return up /\
         getitem2 Sc i (j - 1) = Return left /\
         getitem2 Sc i j =
           Return (Z.max (Z.max (diag + _score_match_mismatch self char1 char2)
                                (up + gap_penalty (base self)))
                         (left + gap_penalty (base self)))%Z).
Proof.
  destruct (run_needleman_wunsch_spec self seq1 seq2)
    as (Tb & Sc & Hrun & [[Hlen Hrows] Hcells] & _).
  exists Tb, Sc. split; [assumption |].
  split; [lia |].
  split; [apply Forall_lookup; intros i row Hrow; rewrite (Hrows i row Hrow); lia |].
  split; [apply (Hcells 0 0); (lia || trivial) |].
  split; [intros j Hj; rewrite Hcells by (lia || trivial); reflexivity |].
  split; [intros i Hi; rewrite Hcells, cell_col0 by (lia || trivial); reflexivity |].
  intros i j Hi Hj.
  destruct i as [| i]; [lia |]. destruct j as [| j]; [lia |].
  rewrite !Nat.sub_succ, !Nat.sub_0_r.
  destruct (lookup_lt_is_Some_2 seq1 i) as [c1 Hc1]; [lia |].
  destruct (lookup_lt_is_Some_2 seq2 j) as [c2 Hc2]; [lia |].
  exists c1, c2, (cell self seq1 seq2 i j), (cell self seq1 seq2 i (S j)),
    (cell self seq1 seq2 (S i) j).
  rewrite !Hcells by (lia || trivial).
  rewrite (getitem_Some _ _ _ Hc1), (getitem_Some _ _ _ Hc2).
  repeat split. rewrite cell_interior.
  unfold diagonal_candidate, gap_candidate, max3.
  rewrite (symbol_lookup _ _ _ Hc1), (symbol_lookup _ _ _ Hc2). reflexivity.
Qed.

Lemma score_matrix_recurrence_witness :
  exists Tb Sc,
    _run_needleman_wunsch (mkNeedlemanWunsch 2 (-1) (-2)) (lit "AT") (lit "AC") =
      Return (Tb, Sc) /\
    getitem2 Sc 0 2 = Return (-4)%Z /\
    getitem2 Sc 1 0 = Return (-2)%Z /\
    exists diag up left,
      getitem2 Sc 1 1 = Return diag /\
      getitem2 Sc 1 2 = Return up /\
      getitem2 Sc 2 1 = Return left /\
      getitem2 Sc 2 2 = Return (Z.max (Z.max (diag + -1) (up + -2)) (left + -2))%Z.
Proof.
  destruct (score_matrix_recurrence (mkNeedlemanWunsch 2 (-1) (-2))
              (lit "AT") (lit "AC"))
    as (Tb & Sc & Hrun & _ & _ & _ & Hrow & Hcol & Hcell).
  exists Tb, Sc. split; [exact Hrun |].
  split; [apply (Hrow 2); simpl; lia |].
  split; [apply (Hcol 1); simpl; lia |].
  destruct (Hcell 2 2) as (c1 & c2 & diag & up & left & H1 & H2 & Hd & Hu & Hl & Hm);
    [simpl; lia | simpl; lia |].
  exists diag, up, left.
  injection H1 as <-. injection H2 as <-.
  split; [exact Hd |]. split; [exact Hu |]. split; [exact Hl |]. exact Hm.
Defined.

(** C3. At every interior cell the traceback matrix holds the direction of
    the candidate that achieves the maximum ([Z.max]) of the three, DIAGONAL
    being preferred to UP and UP to LEFT when candidates tie. *)
Theorem traceback_direction_priority {Self : Type} `{!Aligner Self}
  (self : Self) (seq1 seq2 : str) (i j : nat) :
  1 <= i <= length seq1 -> 1 <= j <= length seq2 ->
  exists Tb Sc char1 char2 diag up left,
    _run_needleman_wunsch self seq1 seq2 = Return (Tb, Sc) /\
    getitem seq1 (i - 1) = Return char1 /\
    getitem seq2 (j - 1) = Return char2 /\
    getitem2 Sc (i - 1) (j - 1) = Return diag /\
    getitem2 Sc (i - 1) j = Return up /\
    getitem2 Sc i (j - 1) = Return left /\
    let diagonal_score := (diag + _score_match_mismatch self char1 char2)%Z in
    let up_score := (up + gap_penalty (base self))%Z in
    let left_score := (left + gap_penalty (base self))%Z in
    let max_score := Z.max (Z.max diagonal_score up_score) left_score in
    getitem2 Sc i j = Return max_score /\
    getitem2 Tb i j =
      Return (Some (if (diagonal_score =? max_score)%Z then DIAGONAL
                    else if (up_score =? max_score)%Z then UP
                    else LEFT)).
Proof.
  intros Hi Hj.
  destruct (run_needleman_wunsch_spec self seq1 seq2)
    as (Tb & Sc & Hrun & [_ HSc] & [_ HTb]).
  destruct i as [| i]; [lia |]. destruct j as [| j]; [lia |].
  rewrite !Nat.sub_succ, !Nat.sub_0_r.
  destruct (lookup_lt_is_Some_2 seq1 i) as [c1 Hc1]; [lia |].
  destruct (lookup_lt_is_Some_2 seq2 j) as [c2 Hc2]; [lia |].
  exists Tb, Sc, c1, c2, (cell self seq1 seq2 i j),
    (cell self seq1 seq2 i (S j)), (cell self seq1 seq2 (S i) j).
  rewrite !HSc, !HTb by (lia || trivial).
  rewrite (getitem_Some _ _ _ Hc1), (getitem_Some _ _ _ Hc2).
  split; [exact Hrun |]. do 5 (split; [reflexivity |]). cbv zeta.
  rewrite cell_interior. unfold tcell, record_direction.
  unfold diagonal_candidate, gap_candidate, max3.
  rewrite (symbol_lookup _ _ _ Hc1), (symbol_lookup _ _ _ Hc2).
  split; [reflexivity |].
  rewrite (Z.eqb_sym (cell self seq1 seq2 i j + _)%Z).
  rewrite (Z.eqb_sym (cell self seq1 seq2 i (S j) + _)%Z).
  reflexivity.
Qed.

Lemma traceback_direction_priority_witness :
  exists Tb Sc char1 char2 diag up left,
    _run_needleman_wunsch (mkNeedlemanWunsch 2 (-1) (-2)) (lit "AT") (lit "AC") =
      Return (Tb, Sc) /\
    getitem (lit "AT") (2 - 1) = Return char1 /\
    getitem (lit "AC") (2 - 1) = Return char2 /\
    getitem2 Sc (2 - 1) (2 - 1) = Return diag /\
    getitem2 Sc (2 - 1) 2 = Return up /\
    getitem2 Sc 2 (2 - 1) = Return left /\
    let diagonal_score :=
      (diag + _score_match_mismatch (mkNeedlemanWunsch 2 (-1) (-2)) char1 char2)%Z in
    let up_score := (up + -2)%Z in
    let left_score := (left + -2)%Z in
    let max_score := Z.max (Z.max diagonal_score up_score) left_score in
    getitem2 Sc 2 2 = Return max_score /\
    getitem2 Tb 2 2 =
      Return (Some (if (diagonal_score =? max_score)%Z then DIAGONAL
                    else if (up_score =? max_score)%Z then UP
                    else LEFT)).
Proof.
  refine (traceback_direction_priority (mkNeedlemanWunsch 2 (-1) (-2))
            (lit "AT") (lit "AC") 2 2 _ _); simpl; lia.
Defined.

(** C4, as the code has it.  For non-empty sequences [align] returns two
    strings of the same length; removing the gap markers from the first
    gives back [seq1] when [seq1] holds no ['-'] of its own, and likewise
    for the second and [seq2]. *)
Theorem align_round_trip {Self : Type} `{!Aligner Self} (self : Self)
  (fuel : nat) (seq1 seq2 : str) :
  seq1 <> [] -> seq2 <> [] -> length seq1 + length seq2 <= fuel ->
  exists aligned1 aligned2 score,
    align self fuel seq1 seq2 = Return (aligned1, aligned2, score) /\
    length aligned1 = length aligned2 /\
    (gap_marker ∉ seq1 -> remove_gaps aligned1 = seq1) /\
    (gap_marker ∉ seq2 -> remove_gaps aligned2 = seq2).
Proof.
  intros Hne1 Hne2 Hfuel.
  destruct (align_spec self fuel seq1 seq2 Hne1 Hne2 Hfuel)
    as (Tb & Sc & cols & _ & _ & Halign & [H1 H2] & _).
  exists (map top cols), (map bottom cols),
    (cell self seq1 seq2 (length seq1) (length seq2)).
  split; [assumption |].
  split; [rewrite !length_map; reflexivity |].
  split; intros Hfree.
  - rewrite remove_gaps_top, H1. apply remove_gaps_id, Hfree.
  - rewrite remove_gaps_bottom, H2. apply remove_gaps_id, Hfree.
Qed.

Lemma align_round_trip_witness :
  exists aligned1 aligned2 score,
    align (mkNeedlemanWunsch 1 (-1) (-2)) 7 (lit "WHY") (lit "WHAT") =
      Return (aligned1, aligned2, score) /\
    length aligned1 = length aligned2 /\
    remove_gaps aligned1 = lit "WHY" /\
    remove_gaps aligned2 = lit "WHAT".
Proof.
  destruct (align_round_trip (mkNeedlemanWunsch 1 (-1) (-2)) 7
              (lit "WHY") (lit "WHAT"))
    as (a1 & a2 & sc & Halign & Hlen & H1 & H2);
    [discriminate | discriminate | simpl; lia |].
  exists a1, a2, sc.
  split; [exact Halign |]. split; [exact Hlen |].
  split; [apply H1 | apply H2]; apply (bool_decide_unpack _); reflexivity.
Defined.

(** C4 fails as stated: a ['-'] that belongs to an input is removed with the
    gap markers. *)
Lemma align_round_trip_counterexample :
  exists aligned1 aligned2 score,
    align (mkNeedlemanWunsch 2 (-1) (-2)) 3 (lit "A-") (lit "A") =
      Return (aligned1, aligned2, score) /\
    aligned1 = lit "A-" /\
    remove_gaps aligned1 = lit "A" /\
    remove_gaps aligned1 <> lit "A-".
Proof.
  exists (lit "A-"), (lit "A-"), 0%Z.
  split; [vm_compute; reflexivity |].
  split; [reflexivity |].
  split; [vm_compute; reflexivity | vm_compute; discriminate].
Qed.

(** C5. [align] raises [ValueError] exactly when one of the two sequences is
    empty, and returns for non-empty sequences. *)
Theorem align_raises_iff_empty {Self : Type} `{!Aligner Self} (self : Self)
  (fuel : nat) (seq1 seq2 : str) :
  length seq1 + length seq2 <= fuel ->
  (align self fuel seq1 seq2 = Raise ValueError <-> seq1 = [] \/ seq2 = []) /\
  (seq1 <> [] -> seq2 <> [] ->
   exists result, align self fuel seq1 seq2 = Return result).
Proof.
  intros Hfuel.
  assert (Hret : seq1 <> [] -> seq2 <> [] ->
            exists result, align self fuel seq1 seq2 = Return result).
  { intros Hne1 Hne2.
    destruct (align_spec self fuel seq1 seq2 Hne1 Hne2 Hfuel)
      as (Tb & Sc & cols & _ & _ & Halign & _).
    eauto. }
  split; [| exact Hret]. split.
  - intros Hraise.
    destruct seq1 as [| c1 s1]; [left; reflexivity |].
    destruct seq2 as [| c2 s2]; [right; reflexivity |].
    destruct Hret as [result Hresult]; [discriminate | discriminate |].
    congruence.
  - intros Hempty. unfold align.
    apply not_empty_cases in Hempty. rewrite Hempty. reflexivity.
Qed.

Lemma align_raises_iff_empty_witness :
  (align (mkNeedlemanWunsch 2 (-1) (-2)) 4 (lit "") (lit "ATCG") = Raise ValueError
   <-> lit "" = [] \/ lit "ATCG" = []) /\
  (lit "" <> [] -> lit "ATCG" <> [] ->
   exists result,
     align (mkNeedlemanWunsch 2 (-1) (-2)) 4 (lit "") (lit "ATCG") = Return result).
Proof.
  apply (align_raises_iff_empty (mkNeedlemanWunsch 2 (-1) (-2)) 4
           (lit "") (lit "ATCG")).
  simpl. lia.
Defined.

(** C6, what the code does: [align_with_matrices] checks nothing.  With an
    empty sequence in either position, or in both, it returns an alignment
    of the other sequence against gaps where [align] raises [ValueError]. *)
Theorem align_with_matrices_accepts_empty :
  align_with_matrices (mkNeedlemanWunsch 2 (-1) (-2)) 4 (lit "") (lit "ATCG") =
    Return (mkResult (lit "----") (lit "ATCG") (-8)%Z
              [[0; -2; -4; -6; -8]%Z]
              [[None; Some LEFT; Some LEFT; Some LEFT; Some LEFT]]) /\
  align_with_matrices (mkNeedlemanWunsch 2 (-1) (-2)) 4 (lit "ATCG") (lit "") =
    Return (mkResult (lit "ATCG") (lit "----") (-8)%Z
              [[0]; [-2]; [-4]; [-6]; [-8]]%Z
              [[None]; [Some UP]; [Some UP]; [Some UP]; [Some UP]]) /\
  align_with_matrices (mkNeedlemanWunsch 2 (-1) (-2)) 0 (lit "") (lit "") =
    Return (mkResult [] [] 0%Z [[0%Z]] [[None]]) /\
  align (mkNeedlemanWunsch 2 (-1) (-2)) 4 (lit "") (lit "ATCG") = Raise ValueError.
Proof. repeat split; vm_compute; reflexivity. Qed.

(** C7. The transition/transversion policy on the four nucleotides. *)
Theorem advanced_score_table (self : NeedlemanWunschAdvanced) :
  let score := NeedlemanWunschAdvanced_score_match_mismatch self in
  Forall (fun X => score X X = match_score (super self))
    ["A"; "T"; "G"; "C"]%char /\
  Forall (fun p => score (fst p) (snd p) = transition_penalty self)
    [("A", "G"); ("G", "A"); ("C", "T"); ("T", "C")]%char /\
  Forall (fun p => score (fst p) (snd p) = transversion_penalty self)
    [("A", "T"); ("T", "A"); ("G", "C"); ("C", "G");
     ("A", "C"); ("C", "A"); ("G", "T"); ("T", "G")]%char.
Proof.
  cbv zeta. repeat split; repeat constructor.
Qed.

(** C8, what the code does: neither policy folds case before it tests for
    a match.  The flat policy scores ['a'] against ['A'] as a mismatch and
    the transition/transversion policy scores it as a transversion; the
    latter folds case only when it looks a pair up among the transitions. *)
Theorem score_is_case_sensitive :
  (forall self : NeedlemanWunsch,
     NeedlemanWunsch_score_match_mismatch self "a" "A" = mismatch_score self) /\
  (forall self : NeedlemanWunschAdvanced,
     NeedlemanWunschAdvanced_score_match_mismatch self "a" "A" =
       transversion_penalty self) /\
  _score_match_mismatch (mkNeedlemanWunsch 2 (-1) (-2)) "a" "A" = (-1)%Z /\
  _score_match_mismatch (NeedlemanWunschAdvanced_init 2 (-1) (-2) (-1)) "a" "A"
    = (-2)%Z /\
  (forall self : NeedlemanWunschAdvanced,
     NeedlemanWunschAdvanced_score_match_mismatch self "a" "g" =
       transition_penalty self).
Proof. repeat split. Qed.

(** C9. The three worked examples of the flat policy, whatever the bound on
    the iterations of the traceback loop, provided it is large enough (the
    second example also returns the score 0, which the claim leaves open). *)
Theorem align_concrete_scenarios (fuel : nat) :
  14 <= fuel ->
  align (mkNeedlemanWunsch 1 (-1) (-2)) fuel (lit "WHY") (lit "WHAT") =
    Return (lit "WH-Y", lit "WHAT", (-1)%Z) /\
  align (mkNeedlemanWunsch 1 (-1) (-1)) fuel (lit "GCATGCT") (lit "GATTACA") =
    Return (lit "GCA-TGCT", lit "G-ATTACA", 0%Z) /\
  align (mkNeedlemanWunsch 2 (-1) (-2)) fuel (lit "ATCG") (lit "ATCG") =
    Return (lit "ATCG", lit "ATCG", 8%Z).
Proof.
  intros Hfuel. repeat split;
    apply (align_mono _ 14 fuel _ _ _ Hfuel); vm_compute; reflexivity.
Qed.

Lemma align_concrete_scenarios_witness :
  align (mkNeedlemanWunsch 1 (-1) (-2)) 14 (lit "WHY") (lit "WHAT") =
    Return (lit "WH-Y", lit "WHAT", (-1)%Z) /\
  align (mkNeedlemanWunsch 1 (-1) (-1)) 14 (lit "GCATGCT") (lit "GATTACA") =
    Return (lit "GCA-TGCT", lit "G-ATTACA", 0%Z) /\
  align (mkNeedlemanWunsch 2 (-1) (-2)) 14 (lit "ATCG") (lit "ATCG") =
    Return (lit "ATCG", lit "ATCG", 8%Z).
Proof. apply (align_concrete_scenarios 14). lia. Defined.

(** C10, as the code has it.  For non-empty sequences the two strings that
    [align] returns are the two rows of a list of columns, each of which
    holds a symbol of at least one sequence; hence their common length is at
    least that of the longer sequence and at most the sum of the two, and,
    when neither sequence holds a ['-'] of its own, at no position do both
    strings show ['-']. *)
Theorem aligned_no_gap_gap_column {Self : Type} `{!Aligner Self} (self : Self)
  (fuel : nat) (seq1 seq2 : str) :
  seq1 <> [] -> seq2 <> [] -> length seq1 + length seq2 <= fuel ->
  exists aligned1 aligned2 score,
    align self fuel seq1 seq2 = Return (aligned1, aligned2, score) /\
    (exists cols, aligned1 = map top cols /\ aligned2 = map bottom cols /\
       global_alignment cols seq1 seq2) /\
    (gap_marker ∉ seq1 -> gap_marker ∉ seq2 ->
     forall k, ~ (aligned1 !! k = Some gap_marker /\
                  aligned2 !! k = Some gap_marker)) /\
    length aligned1 = length aligned2 /\
    Nat.max (length seq1) (length seq2) <= length aligned1 /\
    length aligned1 <= length seq1 + length seq2.
Proof.
  intros Hne1 Hne2 Hfuel.
  destruct (align_spec self fuel seq1 seq2 Hne1 Hne2 Hfuel)
    as (Tb & Sc & cols & _ & _ & Halign & [H1 H2] & _).
  exists (map top cols), (map bottom cols),
    (cell self seq1 seq2 (length seq1) (length seq2)).
  split; [assumption |].
  split; [exists cols; repeat split; assumption |].
  split; [intros Hf1 Hf2 k; apply no_gap_gap_column; congruence |].
  rewrite !length_map. split; [reflexivity |].
  pose proof (symbols1_length cols). pose proof (symbols2_length cols).
  pose proof (symbols_length cols). rewrite H1, H2 in *. lia.
Qed.

Lemma aligned_no_gap_gap_column_witness :
  exists aligned1 aligned2 score,
    align (mkNeedlemanWunsch 1 (-1) (-2)) 7 (lit "WHY") (lit "WHAT") =
      Return (aligned1, aligned2, score) /\
    (forall k, ~ (aligned1 !! k = Some gap_marker /\
                  aligned2 !! k = Some gap_marker)) /\
    length aligned1 = length aligned2 /\
    4 <= length aligned1 <= 7.
Proof.
  destruct (aligned_no_gap_gap_column (mkNeedlemanWunsch 1 (-1) (-2)) 7
              (lit "WHY") (lit "WHAT"))
    as (a1 & a2 & sc & Halign & _ & Hcol & Hlen & Hlo & Hhi);
    [discriminate | discriminate | simpl; lia |].
  exists a1, a2, sc.
  split; [exact Halign |].
  split; [apply Hcol; apply (bool_decide_unpack _); reflexivity |].
  split; [exact Hlen |]. split; [exact Hlo | exact Hhi].
Defined.

(** C10 fails as stated: a ['-'] of an input may face a gap. *)
Lemma aligned_gap_gap_column_counterexample :
  exists aligned1 aligned2 score,
    align (mkNeedlemanWunsch 2 (-1) (-2)) 3 (lit "A-") (lit "A") =
      Return (aligned1, aligned2, score) /\
    aligned1 !! 1 = Some gap_marker /\
    aligned2 !! 1 = Some gap_marker.
Proof.
  exists (lit "A-"), (lit "A-"), 0%Z.
  split; [vm_compute; reflexivity |]. split; reflexivity.
Qed.

(** * Further properties of the code *)

Lemma mat_spec_ext {A : Type} n m (filled filled' : nat -> nat -> Prop)
  (f g : nat -> nat -> A) M :
  mat_spec n m filled f M ->
  (forall a b, a <= n -> b <= m -> filled' a b -> filled a b /\ f a b = g a b) ->
  mat_spec n m filled' g M.
Proof.
  intros [Hdims Hcells] Hsub. split; [assumption |].
  intros a b Ha Hb Hab. destruct (Hsub a b Ha Hb Hab) as [Hfill <-]. eauto.
Qed.

(** An assignment to a cell changes that cell and no other. *)
Lemma mat_spec_update {A : Type} n m (filled : nat -> nat -> Prop)
  (f : nat -> nat -> A) M i j v :
  mat_spec n m filled f M -> i <= n -> j <= m ->
  exists M', setitem2 M i j v = Return M' /\
             mat_spec n m filled (updated f i j v) M'.
Proof.
  intros HM Hi Hj.
  apply (mat_spec_set n m (fun a b => filled a b /\ ~ (a = i /\ b = j)) filled
           (updated f i j v) M i j v); try assumption.
  - eapply mat_spec_ext; [exact HM |].
    intros a b _ _ [Hfill Hne]. split; [assumption |]. unfold updated.
    destruct (Nat.eqb_spec a i), (Nat.eqb_spec b j); simpl; tauto.
  - unfold updated. rewrite !Nat.eqb_refl. reflexivity.
  - intros a b _ _ Hfill.
    destruct (Nat.eq_dec a i), (Nat.eq_dec b j); tauto.
Qed.

(** X1. [_initialize_score_matrix] returns, for any two lengths, a matrix of
    the right dimensions whose first row and first column hold the multiples
    of the gap penalty and whose other cells hold 0. *)
Theorem initialize_score_matrix_cells {Self : Type} `{!Aligner Self}
  (self : Self) (n m i j : nat) :
  i <= n -> j <= m ->
  exists M, _initialize_score_matrix self n m = Return M /\
    length M = n + 1 /\
    Forall (fun row => length row = m + 1) M /\
    getitem2 M i j =
      Return (if (i =? 0)%nat then Z.of_nat j * gap_penalty (base self)
              else if (j =? 0)%nat then Z.of_nat i * gap_penalty (base self)
              else 0)%Z.
Proof.
  intros Hi Hj. unfold _initialize_score_matrix.
  set (gap := gap_penalty (base self)).
  destruct (for_each_range_inv
    (fun k M => mat_spec n m (fun _ _ => True)
       (fun a b => if (a =? 0) && (b <? k) then (Z.of_nat b * gap)%Z else 0%Z) M)
    (fun j matrix => setitem2 matrix 0 j (Z.of_nat j * gap)%Z)
    1 (m + 1) (replicate (n + 1) (replicate (m + 1) 0%Z)))
    as (M1 & HM1 & Hspec1).
  { lia. }
  { apply mat_spec_replicate. intros a b _ _ _.
    destruct (Nat.eqb_spec a 0), (Nat.ltb_spec b 1); simpl; try reflexivity.
    assert (b = 0) as -> by lia. reflexivity. }
  { intros k M Hk HM.
    destruct (mat_spec_update n m _ _ M 0 k (Z.of_nat k * gap)%Z HM)
      as (M' & HM' & Hspec'); [lia | lia |].
    exists M'. split; [assumption |].
    eapply mat_spec_ext; [exact Hspec' |].
    intros a b _ _ _. split; [trivial |]. unfold updated.
    destruct (Nat.eqb_spec a 0), (Nat.eqb_spec b k), (Nat.ltb_spec b k),
      (Nat.ltb_spec b (S k)); simpl; subst; try reflexivity; lia. }
  rewrite HM1, bind_Return.
  destruct (for_each_range_inv
    (fun k M => mat_spec n m (fun _ _ => True)
       (fun a b => if a =? 0 then (Z.of_nat b * gap)%Z
                   else if (b =? 0) && (a <? k) then (Z.of_nat a * gap)%Z
                   else 0%Z) M)
    (fun i matrix => setitem2 matrix i 0 (Z.of_nat i * gap)%Z)
    1 (n + 1) M1) as (M2 & HM2 & Hspec2).
  { lia. }
  { eapply mat_spec_ext; [exact Hspec1 |].
    intros a b _ Hb _. split; [trivial |].
    destruct (Nat.eqb_spec a 0), (Nat.ltb_spec b (m + 1)), (Nat.eqb_spec b 0),
      (Nat.ltb_spec a 1); simpl; subst; try reflexivity; lia. }
  { intros k M Hk HM.
    destruct (mat_spec_update n m _ _ M k 0 (Z.of_nat k * gap)%Z HM)
      as (M' & HM' & Hspec'); [lia | lia |].
    exists M'. split; [assumption |].
    eapply mat_spec_ext; [exact Hspec' |].
    intros a b _ _ _. split; [trivial |]. unfold updated.
    destruct (Nat.eqb_spec a k), (Nat.eqb_spec b 0), (Nat.eqb_spec a 0),
      (Nat.ltb_spec a k), (Nat.ltb_spec a (S k)); simpl; subst;
      try reflexivity; lia. }
  rewrite HM2, bind_Return. exists M2. split; [reflexivity |].
  destruct Hspec2 as [[Hlen Hrows] Hcells].
  split; [lia |].
  split; [apply Forall_lookup; intros a row Hrow; rewrite (Hrows a row Hrow); lia |].
  rewrite Hcells by trivial. f_equal.
  destruct (Nat.eqb_spec i 0), (Nat.eqb_spec j 0), (Nat.ltb_spec i (n + 1));
    simpl; try reflexivity; lia.
Qed.

Lemma initialize_score_matrix_cells_witness :
  exists M,
    _initialize_score_matrix (mkNeedlemanWunsch 2 (-1) (-2)) 3 4 = Return M /\
    length M = 3 + 1 /\
    Forall (fun row => length row = 4 + 1) M /\
    getitem2 M 0 4 = Return (-8)%Z.
Proof.
  refine (initialize_score_matrix_cells (mkNeedlemanWunsch 2 (-1) (-2))
            3 4 0 4 _ _); lia.
Defined.

(** X2. The traceback matrix has the dimensions of the score matrix; its
    origin holds no direction, the rest of its first row holds LEFT, the
    rest of its first column holds UP, and every other cell holds a
    direction. *)
Theorem traceback_matrix_shape {Self : Type} `{!Aligner Self} (self : Self)
  (seq1 seq2 : str) (i j : nat) :
  i <= length seq1 -> j <= length seq2 ->
  exists Tb Sc entry,
    _run_needleman_wunsch self seq1 seq2 = Return (Tb, Sc) /\
    length Tb = length seq1 + 1 /\
    Forall (fun row => length row = length seq2 + 1) Tb /\
    getitem2 Tb i j = Return entry /\
    (entry = None <-> i = 0 /\ j = 0) /\
    (i = 0 -> 1 <= j -> entry = Some LEFT) /\
    (j = 0 -> 1 <= i -> entry = Some UP).
Proof.
  intros Hi Hj.
  destruct (run_needleman_wunsch_spec self seq1 seq2)
    as (Tb & Sc & Hrun & _ & [[Hlen Hrows] Hcells]).
  exists Tb, Sc, (tcell self seq1 seq2 i j).
  split; [assumption |]. split; [lia |].
  split; [apply Forall_lookup; intros a row Hrow; rewrite (Hrows a row Hrow); lia |].
  split; [apply Hcells; trivial |].
  destruct i as [| i], j as [| j]; simpl;
    repeat split; intros; try reflexivity; try discriminate; try lia;
    match goal with H : _ /\ _ |- _ => destruct H; discriminate end.
Qed.

Lemma traceback_matrix_shape_witness :
  exists Tb Sc entry,
    _run_needleman_wunsch (mkNeedlemanWunsch 2 (-1) (-2)) (lit "AT") (lit "AC") =
      Return (Tb, Sc) /\
    length Tb = 2 + 1 /\
    Forall (fun row => length row = 2 + 1) Tb /\
    getitem2 Tb 0 2 = Return entry /\
    (entry = None <-> 0 = 0 /\ 2 = 0) /\
    (0 = 0 -> 1 <= 2 -> entry = Some LEFT) /\
    (2 = 0 -> 1 <= 0 -> entry = Some UP).
Proof.
  refine (traceback_matrix_shape (mkNeedlemanWunsch 2 (-1) (-2))
            (lit "AT") (lit "AC") 0 2 _ _); simpl; lia.
Defined.

(** ** The traceback on an arbitrary matrix *)

Section TracebackAnyMatrix.
Variables seq1 seq2 : str.
Variable Tb : list (list (option direction)).

Lemma traceback_loop_directed fuel : forall i j a1 a2,
  (forall a b, 1 <= a <= i -> 1 <= b <= j ->
     exists d, getitem2 Tb a b = Return (Some d)) ->
  i <= length seq1 -> j <= length seq2 -> i + j <= fuel ->
  exists cols,
    traceback_loop fuel Tb seq1 seq2 i j a1 a2 =
      Return (map top cols ++ rev a1, map bottom cols ++ rev a2) /\
    symbols1 cols = take i seq1 /\
    symbols2 cols = take j seq2.
Proof.
  induction fuel as [| fuel IH]; intros i j a1 a2 Hdir Hi Hj Hfuel.
  { assert (i = 0) as -> by lia. assert (j = 0) as -> by lia.
    exists []. simpl. auto. }
  destruct i as [| i], j as [| j].
  - exists []. simpl. auto.
  - destruct (lookup_lt_is_Some_2 seq2 j) as [c2 Hc2]; [lia |].
    destruct (IH 0 j (a1 ++ [gap_marker]) (a2 ++ [c2]))
      as (cols & Hloop & H1 & H2); [intros; lia | lia | lia | lia |].
    exists (cols ++ [GapInSeq1 c2]).
    cbn [traceback_loop Nat.ltb Nat.leb orb Nat.eqb].
    rewrite Nat.sub_succ, Nat.sub_0_r.
    rewrite (getitem_Some _ _ _ Hc2), bind_Return, Hloop.
    rewrite !rev_unit, !map_app, <- !app_assoc. split; [reflexivity |].
    rewrite symbols1_app, symbols2_app, H1, H2, (take_S_r _ _ _ Hc2).
    simpl. rewrite ?app_nil_r. split; reflexivity.
  - destruct (lookup_lt_is_Some_2 seq1 i) as [c1 Hc1]; [lia |].
    destruct (IH i 0 (a1 ++ [c1]) (a2 ++ [gap_marker]))
      as (cols & Hloop & H1 & H2); [intros; lia | lia | lia | lia |].
    exists (cols ++ [GapInSeq2 c1]).
    cbn [traceback_loop Nat.ltb Nat.leb orb Nat.eqb].
    rewrite Nat.sub_succ, Nat.sub_0_r.
    rewrite (getitem_Some _ _ _ Hc1), bind_Return, Hloop.
    rewrite !rev_unit, !map_app, <- !app_assoc. split; [reflexivity |].
    rewrite symbols1_app, symbols2_app, H1, H2, (take_S_r _ _ _ Hc1).
    simpl. rewrite ?app_nil_r. split; reflexivity.
  - destruct (lookup_lt_is_Some_2 seq1 i) as [c1 Hc1]; [lia |].
    destruct (lookup_lt_is_Some_2 seq2 j) as [c2 Hc2]; [lia |].
    cbn [traceback_loop Nat.ltb Nat.leb orb Nat.eqb].
    rewrite !Nat.sub_succ, !Nat.sub_0_r.
    destruct (Hdir (S i) (S j)) as [d Hd]; [lia | lia |].
    rewrite Hd, bind_Return.
    rewrite !(getitem_Some _ _ _ Hc1), !(getitem_Some _ _ _ Hc2), !bind_Return.
    destruct d.
    + destruct (IH i j (a1 ++ [c1]) (a2 ++ [c2]))
        as (cols & Hloop & H1 & H2);
        [intros; apply Hdir; lia | lia | lia | lia |].
      exists (cols ++ [Both c1 c2]). rewrite Hloop.
      rewrite !rev_unit, !map_app, <- !app_assoc. split; [reflexivity |].
      rewrite symbols1_app, symbols2_app, H1, H2.
      rewrite (take_S_r _ _ _ Hc1), (take_S_r _ _ _ Hc2). split; reflexivity.
    + destruct (IH i (S j) (a1 ++ [c1]) (a2 ++ [gap_marker]))
        as (cols & Hloop & H1 & H2);
        [intros; apply Hdir; lia | lia | lia | lia |].
      exists (cols ++ [GapInSeq2 c1]). rewrite Hloop.
      rewrite !rev_unit, !map_app, <- !app_assoc. split; [reflexivity |].
      rewrite symbols1_app, symbols2_app, H1, H2, (take_S_r _ _ _ Hc1).
      simpl. rewrite ?app_nil_r. split; reflexivity.
    + destruct (IH (S i) j (a1 ++ [gap_marker]) (a2 ++ [c2]))
        as (cols & Hloop & H1 & H2);
        [intros; apply Hdir; lia | lia | lia | lia |].
      exists (cols ++ [GapInSeq1 c2]). rewrite Hloop.
      rewrite !rev_unit, !map_app, <- !app_assoc. split; [reflexivity |].
      rewrite symbols1_app, symbols2_app, H1, H2, (take_S_r _ _ _ Hc2).
      simpl. rewrite ?app_nil_r. split; reflexivity.
Qed.

(** Along the first row the loop does not consult the matrix. *)
Lemma traceback_loop_row0 : forall j fuel a1 a2,
  j <= length seq2 -> j <= fuel ->
  traceback_loop fuel Tb seq1 seq2 0 j a1 a2 =
    Return (replicate j gap_marker ++ rev a1, take j seq2 ++ rev a2).
Proof.
  induction j as [| j IH]; intros fuel a1 a2 Hj Hfuel.
  - destruct fuel; reflexivity.
  - destruct fuel as [| fuel]; [lia |].
    destruct (lookup_lt_is_Some_2 seq2 j) as [c2 Hc2]; [lia |].
    cbn [traceback_loop Nat.ltb Nat.leb orb Nat.eqb].
    rewrite Nat.sub_succ, Nat.sub_0_r.
    rewrite (getitem_Some _ _ _ Hc2), bind_Return, IH by lia.
    rewrite !rev_unit, (take_S_r _ _ _ Hc2), <- !app_assoc.
    rewrite replicate_S_end, <- app_assoc. reflexivity.
Qed.

(** Along the first column neither. *)
Lemma traceback_loop_col0 : forall i fuel a1 a2,
  i <= length seq1 -> i <= fuel ->
  traceback_loop fuel Tb seq1 seq2 i 0 a1 a2 =
    Return (take i seq1 ++ rev a1, replicate i gap_marker ++ rev a2).
Proof.
  induction i as [| i IH]; intros fuel a1 a2 Hi Hfuel.
  - destruct fuel; reflexivity.
  - destruct fuel as [| fuel]; [lia |].
    destruct (lookup_lt_is_Some_2 seq1 i) as [c1 Hc1]; [lia |].
    cbn [traceback_loop Nat.ltb Nat.leb orb Nat.eqb].
    rewrite Nat.sub_succ, Nat.sub_0_r.
    rewrite (getitem_Some _ _ _ Hc1), bind_Return, IH by lia.
    rewrite !rev_unit, (take_S_r _ _ _ Hc1), <- !app_assoc.
    rewrite replicate_S_end, <- app_assoc. reflexivity.
Qed.

(** A cell without a direction stops the walk for good. *)
Lemma traceback_loop_stuck fuel : forall i j a1 a2,
  1 <= i -> 1 <= j -> getitem2 Tb i j = Return None ->
  traceback_loop fuel Tb seq1 seq2 i j a1 a2 = OutOfFuel.
Proof.
  induction fuel as [| fuel IH]; intros i j a1 a2 Hi Hj Hnone.
  - destruct i; [lia |]. reflexivity.
  - destruct i as [| i]; [lia |]. destruct j as [| j]; [lia |].
    cbn [traceback_loop Nat.ltb Nat.leb orb Nat.eqb].
    rewrite Hnone, bind_Return. apply IH; assumption.
Qed.
End TracebackAnyMatrix.

(** X3. [_get_aligned_sequences] needs nothing of the traceback matrix but a
    direction in every cell off the first row and column: whatever the
    directions are, it returns the two rows of a global alignment of the two
    sequences, hence two strings of the same length. *)
Theorem get_aligned_sequences_any_directions (fuel : nat)
  (Tb : list (list (option direction))) (seq1 seq2 : str) :
  (forall i j, 1 <= i <= length seq1 -> 1 <= j <= length seq2 ->
     exists d, getitem2 Tb i j = Return (Some d)) ->
  length seq1 + length seq2 <= fuel ->
  exists cols,
    _get_aligned_sequences fuel Tb seq1 seq2 =
      Return (map top cols, map bottom cols) /\
    global_alignment cols seq1 seq2 /\
    length (map top cols) = length (map bottom cols).
Proof.
  intros Hdir Hfuel. unfold _get_aligned_sequences.
  destruct (traceback_loop_directed seq1 seq2 Tb fuel
              (length seq1) (length seq2) [] [])
    as (cols & Hloop & H1 & H2); [assumption | lia | lia | lia |].
  exists cols. rewrite Hloop. simpl. rewrite !app_nil_r.
  split; [reflexivity |].
  split; [| rewrite !length_map; reflexivity].
  split; [rewrite H1 | rewrite H2]; apply firstn_all.
Qed.

Lemma get_aligned_sequences_any_directions_witness :
  exists cols,
    _get_aligned_sequences 2 [[None; None]; [None; Some LEFT]]
      (lit "A") (lit "C") =
      Return (map top cols, map bottom cols) /\
    global_alignment cols (lit "A") (lit "C") /\
    length (map top cols) = length (map bottom cols).
Proof.
  refine (get_aligned_sequences_any_directions 2
            [[None; None]; [None; Some LEFT]] (lit "A") (lit "C") _ _).
  - intros i j Hi Hj. simpl in Hi, Hj.
    assert (i = 1) as -> by lia. assert (j = 1) as -> by lia.
    exists LEFT. reflexivity.
  - simpl. lia.
Defined.

(** X4. [_get_aligned_sequences] does not check its matrix: started on two
    non-empty sequences with a matrix whose cell [(len(seq1), len(seq2))]
    holds no direction, it never returns, however many iterations it is
    given. *)
Theorem get_aligned_sequences_never_returns (fuel : nat)
  (Tb : list (list (option direction))) (seq1 seq2 : str) :
  seq1 <> [] -> seq2 <> [] ->
  getitem2 Tb (length seq1) (length seq2) = Return None ->
  _get_aligned_sequences fuel Tb seq1 seq2 = OutOfFuel.
Proof.
  intros Hne1 Hne2 Hnone. unfold _get_aligned_sequences.
  destruct seq1 as [| c1 s1]; [congruence |].
  destruct seq2 as [| c2 s2]; [congruence |].
  apply traceback_loop_stuck; simpl; (lia || assumption).
Qed.

Lemma get_aligned_sequences_never_returns_witness :
  _get_aligned_sequences 1000 [[None; Some LEFT]; [Some UP; None]]
    (lit "A") (lit "C") = OutOfFuel.
Proof.
  refine (get_aligned_sequences_never_returns 1000
            [[None; Some LEFT]; [Some UP; None]] (lit "A") (lit "C") _ _ _);
    [discriminate | discriminate | reflexivity].
Defined.

(** ** [align_with_matrices] on all inputs *)

Lemma align_with_matrices_spec {Self : Type} `{!Aligner Self} (self : Self)
  fuel (seq1 seq2 : str) :
  length seq1 + length seq2 <= fuel ->
  exists Tb Sc cols,
    _run_needleman_wunsch self seq1 seq2 = Return (Tb, Sc) /\
    align_with_matrices self fuel seq1 seq2 =
      Return (mkResult (map top cols) (map bottom cols)
                (cell self seq1 seq2 (length seq1) (length seq2)) Sc Tb) /\
    getitem2 Sc (length seq1) (length seq2) =
      Return (cell self seq1 seq2 (length seq1) (length seq2)) /\
    global_alignment cols seq1 seq2 /\
    alignment_score self cols =
      cell self seq1 seq2 (length seq1) (length seq2) /\
    (seq1 <> [] -> seq2 <> [] ->
     align self fuel seq1 seq2 =
       Return (map top cols, map bottom cols,
               cell self seq1 seq2 (length seq1) (length seq2))).
Proof.
  intros Hfuel.
  destruct (run_needleman_wunsch_spec self seq1 seq2)
    as (Tb & Sc & Hrun & HSc & HTb).
  destruct (get_aligned_sequences_spec self seq1 seq2 Tb HTb fuel Hfuel)
    as (cols & Hwalk & Halign & Hscore).
  assert (Hcell : getitem2 Sc (length seq1) (length seq2) =
            Return (cell self seq1 seq2 (length seq1) (length seq2))).
  { destruct HSc as [_ Hcells]. apply Hcells; trivial. }
  exists Tb, Sc, cols.
  split; [assumption |]. split.
  { unfold align_with_matrices.
    rewrite Hrun, bind_Return. cbn beta iota.
    rewrite Hwalk, bind_Return. cbn beta iota.
    rewrite Hcell, bind_Return. reflexivity. }
  split; [assumption |]. split; [assumption |]. split; [assumption |].
  intros Hne1 Hne2. unfold align.
  destruct seq1 as [| c1 s1]; [congruence |].
  destruct seq2 as [| c2 s2]; [congruence |].
  cbn [is_empty orb].
  rewrite Hrun, bind_Return. cbn beta iota.
  rewrite Hwalk, bind_Return. cbn beta iota.
  rewrite Hcell, bind_Return. reflexivity.
Qed.

(** X5. [align_with_matrices] returns on every input, empty sequences
    included: its matrices are those of the engine, its score is the last
    cell of the score matrix and bounds the score of every global alignment,
    its two strings have the same length, and on non-empty sequences its
    strings and score are those that [align] returns. *)
Theorem align_with_matrices_total {Self : Type} `{!Aligner Self} (self : Self)
  (fuel : nat) (seq1 seq2 : str) :
  length seq1 + length seq2 <= fuel ->
  exists r,
    align_with_matrices self fuel seq1 seq2 = Return r /\
    _run_needleman_wunsch self seq1 seq2 =
      Return (traceback_matrix r, score_matrix r) /\
    getitem2 (score_matrix r) (length seq1) (length seq2) = Return (score r) /\
    length (seq1_aligned r) = length (seq2_aligned r) /\
    (forall cols, global_alignment cols seq1 seq2 ->
       (alignment_score self cols <= score r)%Z) /\
    (seq1 <> [] -> seq2 <> [] ->
     align self fuel seq1 seq2 =
       Return (seq1_aligned r, seq2_aligned r, score r)).
Proof.
  intros Hfuel.
  destruct (align_with_matrices_spec self fuel seq1 seq2 Hfuel)
    as (Tb & Sc & cols & Hrun & Hawm & Hcell & Hglobal & Hscore & Halign).
  eexists. split; [exact Hawm |]. simpl.
  split; [assumption |]. split; [assumption |].
  split; [rewrite !length_map; reflexivity |].
  split; [| assumption].
  intros cols' [H1 H2]. subst seq1 seq2. apply alignment_score_le_cell.
Qed.

Lemma align_with_matrices_total_witness :
  exists r,
    align_with_matrices (mkNeedlemanWunsch 1 (-1) (-2)) 7 (lit "WHY") (lit "WHAT")
      = Return r /\
    _run_needleman_wunsch (mkNeedlemanWunsch 1 (-1) (-2)) (lit "WHY") (lit "WHAT")
      = Return (traceback_matrix r, score_matrix r) /\
    getitem2 (score_matrix r) 3 4 = Return (score r) /\
    length (seq1_aligned r) = length (seq2_aligned r) /\
    align (mkNeedlemanWunsch 1 (-1) (-2)) 7 (lit "WHY") (lit "WHAT") =
      Return (seq1_aligned r, seq2_aligned r, score r).
Proof.
  destruct (align_with_matrices_total (mkNeedlemanWunsch 1 (-1) (-2)) 7
              (lit "WHY") (lit "WHAT"))
    as (r & Hawm & Hrun & Hcell & Hlen & _ & Halign); [simpl; lia |].
  exists r. split; [exact Hawm |]. split; [exact Hrun |].
  split; [exact Hcell |]. split; [exact Hlen |].
  apply Halign; discriminate.
Defined.

(** X6. Given an empty sequence, [align_with_matrices] sets the other
    sequence against as many gap markers and scores it that many gap
    penalties. *)
Theorem align_with_matrices_empty {Self : Type} `{!Aligner Self} (self : Self)
  (fuel : nat) (seq : str) :
  length seq <= fuel ->
  (exists r, align_with_matrices self fuel [] seq = Return r /\
     seq1_aligned r = replicate (length seq) gap_marker /\
     seq2_aligned r = seq /\
     score r = (Z.of_nat (length seq) * gap_penalty (base self))%Z) /\
  (exists r, align_with_matrices self fuel seq [] = Return r /\
     seq1_aligned r = seq /\
     seq2_aligned r = replicate (length seq) gap_marker /\
     score r = (Z.of_nat (length seq) * gap_penalty (base self))%Z).
Proof.
  intros Hfuel. split.
  - destruct (run_needleman_wunsch_spec self [] seq)
      as (Tb & Sc & Hrun & [_ HSc] & _).
    unfold align_with_matrices, _get_aligned_sequences.
    rewrite Hrun, bind_Return. cbn beta iota.
    rewrite traceback_loop_row0, bind_Return by (simpl; lia). cbn beta iota.
    rewrite HSc, bind_Return by (simpl; trivial || lia).
    eexists. split; [reflexivity |]. simpl.
    rewrite !app_nil_r, firstn_all, cell_row0. auto.
  - destruct (run_needleman_wunsch_spec self seq [])
      as (Tb & Sc & Hrun & [_ HSc] & _).
    unfold align_with_matrices, _get_aligned_sequences.
    rewrite Hrun, bind_Return. cbn beta iota.
    rewrite traceback_loop_col0, bind_Return by (simpl; lia). cbn beta iota.
    rewrite HSc, bind_Return by (simpl; trivial || lia).
    eexists. split; [reflexivity |]. simpl.
    rewrite !app_nil_r, firstn_all, cell_col0. auto.
Qed.

Lemma align_with_matrices_empty_witness :
  (exists r,
     align_with_matrices (mkNeedlemanWunsch 2 (-1) (-2)) 4 [] (lit "ATCG")
       = Return r /\
     seq1_aligned r = replicate 4 gap_marker /\
     seq2_aligned r = lit "ATCG" /\
     score r = (4 * -2)%Z) /\
  (exists r,
     align_with_matrices (mkNeedlemanWunsch 2 (-1) (-2)) 4 (lit "ATCG") []
       = Return r /\
     seq1_aligned r = lit "ATCG" /\
     seq2_aligned r = replicate 4 gap_marker /\
     score r = (4 * -2)%Z).
Proof.
  refine (align_with_matrices_empty (mkNeedlemanWunsch 2 (-1) (-2)) 4
            (lit "ATCG") _).
  simpl. lia.
Defined.

(** X7. Every cell of the score matrix, not the last one alone, is the best
    score of a global alignment of the prefixes it stands for: cell [(i, j)]
    is the score of some global alignment of the first [i] symbols of [seq1]
    with the first [j] symbols of [seq2], and no such alignment scores
    more. *)
Theorem score_matrix_cell_optimal {Self : Type} `{!Aligner Self} (self : Self)
  (seq1 seq2 : str) (i j : nat) :
  i <= length seq1 -> j <= length seq2 ->
  exists Tb Sc v,
    _run_needleman_wunsch self seq1 seq2 = Return (Tb, Sc) /\
    getitem2 Sc i j = Return v /\
    (exists cols, global_alignment cols (take i seq1) (take j seq2) /\
       alignment_score self cols = v) /\
    (forall cols, global_alignment cols (take i seq1) (take j seq2) ->
       (alignment_score self cols <= v)%Z).
Proof.
  intros Hi Hj.
  destruct (run_needleman_wunsch_spec self seq1 seq2)
    as (Tb & Sc & Hrun & [_ HSc] & HTb).
  exists Tb, Sc, (cell self seq1 seq2 i j).
  split; [assumption |]. split; [apply HSc; trivial |]. split.
  - destruct (traceback_loop_spec self seq1 seq2 Tb HTb (i + j) i j [] [])
      as (cols & _ & H1 & H2 & Hscore); [lia | lia | lia |].
    exists cols. repeat split; assumption.
  - intros cols [H1 H2].
    pose proof (alignment_score_le_cell self cols) as Hle.
    rewrite H1, H2, !length_take, !Nat.min_l in Hle by assumption.
    rewrite <- (take_drop i seq1), <- (take_drop j seq2) at 1.
    rewrite cell_prefix by (rewrite length_take; lia). exact Hle.
Qed.

Lemma score_matrix_cell_optimal_witness :
  exists Tb Sc v,
    _run_needleman_wunsch (mkNeedlemanWunsch 1 (-1) (-2)) (lit "WHY") (lit "WHAT")
      = Return (Tb, Sc) /\
    getitem2 Sc 2 3 = Return v /\
    (exists cols,
       global_alignment cols (take 2 (lit "WHY")) (take 3 (lit "WHAT")) /\
       alignment_score (mkNeedlemanWunsch 1 (-1) (-2)) cols = v) /\
    (forall cols,
       global_alignment cols (take 2 (lit "WHY")) (take 3 (lit "WHAT")) ->
       (alignment_score (mkNeedlemanWunsch 1 (-1) (-2)) cols <= v)%Z).
Proof.
  refine (score_matrix_cell_optimal (mkNeedlemanWunsch 1 (-1) (-2))
            (lit "WHY") (lit "WHAT") 2 3 _ _); simpl; lia.
Defined.

(** ** Exchanging the sequences, comparing scoring methods *)

Lemma cell_swap {Self : Type} `{!Aligner Self} (self : Self) (seq1 seq2 : str) :
  symmetric_scoring self ->
  forall i j, cell self seq1 seq2 i j = cell self seq2 seq1 j i.
Proof.
  intros Hsym. induction i as [| i IHi]; intros j.
  - rewrite cell_row0, cell_col0. reflexivity.
  - induction j as [| j IHj].
    + rewrite cell_row0, cell_col0. reflexivity.
    + rewrite !cell_interior. unfold diagonal_candidate, gap_candidate.
      rewrite IHj, (IHi j), (IHi (S j)), (Hsym (symbol seq1 i)).
      unfold max3. lia.
Qed.

Lemma cell_mono {Self1 Self2 : Type} `{!Aligner Self1} `{!Aligner Self2}
  (self1 : Self1) (self2 : Self2) (seq1 seq2 : str) :
  (forall x y, (_score_match_mismatch self1 x y
                <= _score_match_mismatch self2 x y)%Z) ->
  (gap_penalty (base self1) <= gap_penalty (base self2))%Z ->
  forall i j, (cell self1 seq1 seq2 i j <= cell self2 seq1 seq2 i j)%Z.
Proof.
  intros Hscore Hgap. induction i as [| i IHi]; intros j.
  - rewrite !cell_row0. nia.
  - induction j as [| j IHj].
    + rewrite !cell_col0. nia.
    + rewrite !cell_interior. unfold diagonal_candidate, gap_candidate, max3.
      pose proof (IHi j). pose proof (IHi (S j)).
      pose proof (Hscore (symbol seq1 i) (symbol seq2 j)). lia.
Qed.

(** X8. When the scoring method does not depend on the order of its
    arguments, [align] gives the same score whichever of the two non-empty
    sequences comes first. *)
Theorem align_score_symmetric {Self : Type} `{!Aligner Self} (self : Self)
  (fuel : nat) (seq1 seq2 : str) :
  symmetric_scoring self ->
  seq1 <> [] -> seq2 <> [] -> length seq1 + length seq2 <= fuel ->
  exists a1 a2 b1 b2 score,
    align self fuel seq1 seq2 = Return (a1, a2, score) /\
    align self fuel seq2 seq1 = Return (b1, b2, score).
Proof.
  intros Hsym Hne1 Hne2 Hfuel.
  destruct (align_spec self fuel seq1 seq2 Hne1 Hne2 Hfuel)
    as (_ & _ & cols & _ & _ & Halign & _).
  destruct (align_spec self fuel seq2 seq1 Hne2 Hne1)
    as (_ & _ & cols' & _ & _ & Halign' & _); [lia |].
  exists (map top cols), (map bottom cols), (map top cols'), (map bottom cols'),
    (cell self seq1 seq2 (length seq1) (length seq2)).
  split; [assumption |]. rewrite Halign'.
  rewrite (cell_swap self seq1 seq2 Hsym). reflexivity.
Qed.

Lemma align_score_symmetric_witness :
  exists a1 a2 b1 b2 score,
    align (mkNeedlemanWunsch 1 (-1) (-2)) 7 (lit "WHY") (lit "WHAT") =
      Return (a1, a2, score) /\
    align (mkNeedlemanWunsch 1 (-1) (-2)) 7 (lit "WHAT") (lit "WHY") =
      Return (b1, b2, score).
Proof.
  refine (align_score_symmetric (mkNeedlemanWunsch 1 (-1) (-2)) 7
            (lit "WHY") (lit "WHAT") _ _ _ _).
  - intros x y. simpl. unfold NeedlemanWunsch_score_match_mismatch.
    rewrite Ascii.eqb_sym. reflexivity.
  - discriminate.
  - discriminate.
  - simpl. lia.
Defined.

Lemma transitions_swap (a b : ascii) :
  existsb (pair_eqb (a, b)) transitions = existsb (pair_eqb (b, a)) transitions.
Proof.
  unfold transitions, pair_eqb. simpl.
  destruct (Ascii.eqb a "A"), (Ascii.eqb a "G"), (Ascii.eqb a "C"),
    (Ascii.eqb a "T"), (Ascii.eqb b "A"), (Ascii.eqb b "G"),
    (Ascii.eqb b "C"), (Ascii.eqb b "T"); reflexivity.
Qed.

(** X9. Both scoring methods give a pair of characters and the reversed
    pair the same score. *)
Theorem scoring_methods_symmetric :
  (forall self : NeedlemanWunsch, symmetric_scoring self) /\
  (forall self : NeedlemanWunschAdvanced, symmetric_scoring self).
Proof.
  split; intros self x y; simpl.
  - unfold NeedlemanWunsch_score_match_mismatch.
    rewrite Ascii.eqb_sym. reflexivity.
  - unfold NeedlemanWunschAdvanced_score_match_mismatch.
    rewrite (Ascii.eqb_sym x y). cbv zeta.
    rewrite transitions_swap. reflexivity.
Qed.

(** X10. Raising scores raises the result: if one aligner scores every pair
    of characters and the gap no higher than another, the score that it
    returns for two non-empty sequences is no higher either. *)
Theorem align_score_monotone {Self1 Self2 : Type}
  `{!Aligner Self1} `{!Aligner Self2} (self1 : Self1) (self2 : Self2)
  (fuel : nat) (seq1 seq2 : str) :
  (forall x y, (_score_match_mismatch self1 x y
                <= _score_match_mismatch self2 x y)%Z) ->
  (gap_penalty (base self1) <= gap_penalty (base self2))%Z ->
  seq1 <> [] -> seq2 <> [] -> length seq1 + length seq2 <= fuel ->
  exists a1 a2 score1 b1 b2 score2,
    align self1 fuel seq1 seq2 = Return (a1, a2, score1) /\
    align self2 fuel seq1 seq2 = Return (b1, b2, score2) /\
    (score1 <= score2)%Z.
Proof.
  intros Hscore Hgap Hne1 Hne2 Hfuel.
  destruct (align_spec self1 fuel seq1 seq2 Hne1 Hne2 Hfuel)
    as (_ & _ & cols & _ & _ & Halign & _).
  destruct (align_spec self2 fuel seq1 seq2 Hne1 Hne2 Hfuel)
    as (_ & _ & cols' & _ & _ & Halign' & _).
  do 6 eexists. split; [exact Halign |]. split; [exact Halign' |].
  apply cell_mono; assumption.
Qed.

Lemma align_score_monotone_witness :
  exists a1 a2 score1 b1 b2 score2,
    align (NeedlemanWunschAdvanced_init 2 (-1) (-2) (-1)) 16
      (lit "ATCGATCG") (lit "ATGCATGC") = Return (a1, a2, score1) /\
    align (mkNeedlemanWunsch 2 (-1) (-1)) 16
      (lit "ATCGATCG") (lit "ATGCATGC") = Return (b1, b2, score2) /\
    (score1 <= score2)%Z.
Proof.
  refine (align_score_monotone (NeedlemanWunschAdvanced_init 2 (-1) (-2) (-1))
            (mkNeedlemanWunsch 2 (-1) (-1)) 16
            (lit "ATCGATCG") (lit "ATGCATGC") _ _ _ _ _).
  - intros x y. simpl.
    unfold NeedlemanWunschAdvanced_score_match_mismatch,
      NeedlemanWunsch_score_match_mismatch. simpl.
    destruct (Ascii.eqb x y); [lia |].
    match goal with |- context [if ?b then _ else _] => destruct b end; lia.
  - simpl. lia.
  - discriminate.
  - discriminate.
  - simpl. lia.
Defined.

(** The engine looks at the scoring method and the gap penalty through their
    values only. *)
Lemma for_each_ext {St : Type} (body body' : nat -> St -> outcome St) xs :
  (forall k s, body k s = body' k s) ->
  forall s, for_each xs body s = for_each xs body' s.
Proof.
  intros Hbody. induction xs as [| x xs IH]; intros s; [reflexivity |].
  simpl. rewrite Hbody. destruct (body' x s); simpl; auto.
Qed.

Section SameScores.
Context {Self1 Self2 : Type} `{!Aligner Self1} `{!Aligner Self2}.
Variables (self1 : Self1) (self2 : Self2).
Hypothesis Hscore : forall x y,
  _score_match_mismatch self1 x y = _score_match_mismatch self2 x y.
Hypothesis Hgap : gap_penalty (base self1) = gap_penalty (base self2).

Lemma fill_cell_ext seq1 seq2 i j st :
  fill_cell self1 seq1 seq2 i j st = fill_cell self2 seq1 seq2 i j st.
Proof.
  unfold fill_cell. destruct st as [Sc Tb].
  destruct (getitem seq1 (i - 1)) as [c1 | |]; try reflexivity.
  destruct (getitem seq2 (j - 1)) as [c2 | |]; try reflexivity.
  rewrite !bind_Return.
  destruct (getitem2 Sc (i - 1) (j - 1)) as [d | |]; try reflexivity.
  destruct (getitem2 Sc (i - 1) j) as [u | |]; try reflexivity.
  destruct (getitem2 Sc i (j - 1)) as [l | |]; try reflexivity.
  rewrite !bind_Return, Hscore, Hgap. reflexivity.
Qed.

Lemma run_needleman_wunsch_ext seq1 seq2 :
  _run_needleman_wunsch self1 seq1 seq2 = _run_needleman_wunsch self2 seq1 seq2.
Proof.
  unfold _run_needleman_wunsch, _initialize_score_matrix. rewrite Hgap.
  destruct (for_each _ _ _ ≫= _) as [Sc | |]; try reflexivity.
  rewrite !bind_Return.
  destruct (for_each _ _ _) as [Tb1 | |]; try reflexivity.
  rewrite !bind_Return.
  destruct (for_each _ _ _) as [Tb | |]; try reflexivity.
  rewrite !bind_Return. f_equal.
  apply for_each_ext. intros k st. apply for_each_ext.
  intros k' st'. apply fill_cell_ext.
Qed.

Lemma align_ext fuel seq1 seq2 :
  align self1 fuel seq1 seq2 = align self2 fuel seq1 seq2.
Proof. unfold align. rewrite run_needleman_wunsch_ext. reflexivity. Qed.
End SameScores.

(** X11. When the transversion penalty is set equal to the transition
    penalty, a [NeedlemanWunschAdvanced] aligner returns, on all inputs, what
    the [NeedlemanWunsch] aligner with that penalty as its mismatch score
    returns. *)
Theorem advanced_with_equal_penalties (match_score penalty gap_penalty : Z)
  (fuel : nat) (seq1 seq2 : str) :
  align (NeedlemanWunschAdvanced_init match_score penalty penalty gap_penalty)
    fuel seq1 seq2 =
  align (mkNeedlemanWunsch match_score penalty gap_penalty) fuel seq1 seq2.
Proof.
  apply align_ext; [| reflexivity].
  intros x y. simpl.
  unfold NeedlemanWunschAdvanced_score_match_mismatch,
    NeedlemanWunsch_score_match_mismatch. simpl.
  destruct (Ascii.eqb x y); [reflexivity |].
  match goal with |- context [if ?b then _ else _] => destruct b end;
    reflexivity.
Qed.

(** ** Bounds on the score, and identical sequences *)

Section ScoreBounds.
Context {Self : Type} `{!Aligner Self} (self : Self).
Variable best : Z.
Hypothesis Hbest : forall x y, (_score_match_mismatch self x y <= best)%Z.
Hypothesis Hgap : (2 * gap_penalty (base self) <= best)%Z.

Lemma score_bound_row0 j :
  score_bound best (gap_penalty (base self)) 0 j =
  (Z.of_nat j * gap_penalty (base self))%Z.
Proof. unfold score_bound. rewrite Nat.min_0_l, Nat.max_0_l, Nat.sub_0_r. lia. Qed.

Lemma score_bound_col0 i :
  score_bound best (gap_penalty (base self)) i 0 =
  (Z.of_nat i * gap_penalty (base self))%Z.
Proof. unfold score_bound. rewrite Nat.min_0_r, Nat.max_0_r, Nat.sub_0_r. lia. Qed.

Lemma score_bound_diagonal i j :
  (score_bound best (gap_penalty (base self)) i j + best
   = score_bound best (gap_penalty (base self)) (S i) (S j))%Z.
Proof.
  unfold score_bound.
  rewrite <- Nat.succ_min_distr, <- Nat.succ_max_distr, Nat.sub_succ.
  rewrite Nat2Z.inj_succ. lia.
Qed.

Lemma score_bound_step_up i j :
  (score_bound best (gap_penalty (base self)) i j + gap_penalty (base self)
   <= score_bound best (gap_penalty (base self)) (S i) j)%Z.
Proof.
  unfold score_bound. destruct (le_lt_dec j i) as [Hle | Hlt].
  - rewrite !Nat.min_r, !Nat.max_l by lia.
    replace (S i - j) with (S (i - j)) by lia. rewrite Nat2Z.inj_succ. lia.
  - rewrite !Nat.min_l, !Nat.max_r by lia.
    replace (j - i) with (S (j - S i)) by lia.
    rewrite !Nat2Z.inj_succ. lia.
Qed.

Lemma score_bound_step_left i j :
  (score_bound best (gap_penalty (base self)) i j + gap_penalty (base self)
   <= score_bound best (gap_penalty (base self)) i (S j))%Z.
Proof.
  unfold score_bound. destruct (le_lt_dec i j) as [Hle | Hlt].
  - rewrite !Nat.min_l, !Nat.max_r by lia.
    replace (S j - i) with (S (j - i)) by lia. rewrite Nat2Z.inj_succ. lia.
  - rewrite !Nat.min_r, !Nat.max_l by lia.
    replace (i - j) with (S (i - S j)) by lia.
    rewrite !Nat2Z.inj_succ. lia.
Qed.

Lemma cell_le_score_bound seq1 seq2 : forall i j,
  (cell self seq1 seq2 i j <= score_bound best (gap_penalty (base self)) i j)%Z.
Proof.
  induction i as [| i IHi]; intros j.
  - rewrite cell_row0, score_bound_row0. lia.
  - induction j as [| j IHj].
    + rewrite cell_col0, score_bound_col0. lia.
    + rewrite cell_interior. unfold diagonal_candidate, gap_candidate, max3.
      pose proof (IHi j). pose proof (IHi (S j)).
      pose proof (Hbest (symbol seq1 i) (symbol seq2 j)).
      pose proof (score_bound_diagonal i j).
      pose proof (score_bound_step_up i (S j)).
      pose proof (score_bound_step_left (S i) j). lia.
Qed.

Lemma cell_ge_all_gaps seq1 seq2 i j :
  (Z.of_nat (i + j) * gap_penalty (base self) <= cell self seq1 seq2 i j)%Z.
Proof.
  induction j as [| j IHj].
  - rewrite cell_col0, Nat.add_0_r. lia.
  - pose proof (cell_ge_left self seq1 seq2 i j) as Hleft.
    unfold gap_candidate in Hleft.
    rewrite Nat.add_succ_r, Nat2Z.inj_succ. lia.
Qed.

Hypothesis Hmatch : forall x, _score_match_mismatch self x x = best.

(** On the diagonal of the matrix of a sequence against itself. *)
Lemma cell_identical (seq : str) i :
  cell self seq seq i i = (Z.of_nat i * best)%Z.
Proof.
  apply Z.le_antisymm.
  - pose proof (cell_le_score_bound seq seq i i) as Hle.
    unfold score_bound in Hle.
    rewrite Nat.min_id, Nat.max_id, Nat.sub_diag in Hle. lia.
  - induction i as [| i IH].
    + rewrite cell_row0. lia.
    + pose proof (cell_ge_diagonal self seq seq i i) as Hd.
      unfold diagonal_candidate in Hd. rewrite Hmatch in Hd.
      rewrite Nat2Z.inj_succ. lia.
Qed.

Lemma tcell_identical (seq : str) i :
  tcell self seq seq (S i) (S i) = Some DIAGONAL.
Proof.
  unfold tcell. rewrite <- cell_interior.
  unfold diagonal_candidate, record_direction.
  rewrite !cell_identical, Hmatch, Nat2Z.inj_succ.
  replace (Z.succ (Z.of_nat i) * best)%Z with (Z.of_nat i * best + best)%Z by lia.
  rewrite Z.eqb_refl. reflexivity.
Qed.

Lemma traceback_loop_identical (seq : str) Tb :
  mat_spec (length seq) (length seq) (fun _ _ => True) (tcell self seq seq) Tb ->
  forall i fuel a1 a2, i <= length seq -> i <= fuel ->
    traceback_loop fuel Tb seq seq i i a1 a2 =
      Return (take i seq ++ rev a1, take i seq ++ rev a2).
Proof.
  intros [_ Hcells]. induction i as [| i IH]; intros fuel a1 a2 Hi Hfuel.
  - destruct fuel; reflexivity.
  - destruct fuel as [| fuel]; [lia |].
    destruct (lookup_lt_is_Some_2 seq i) as [c Hc]; [lia |].
    cbn [traceback_loop Nat.ltb Nat.leb orb Nat.eqb].
    rewrite !Nat.sub_succ, !Nat.sub_0_r.
    rewrite Hcells, tcell_identical, bind_Return by (trivial || lia).
    rewrite (getitem_Some _ _ _ Hc), !bind_Return, IH by lia.
    rewrite !rev_unit, (take_S_r _ _ _ Hc), <- !app_assoc. reflexivity.
Qed.

Lemma align_identical fuel (seq : str) :
  seq <> [] -> length seq <= fuel ->
  align self fuel seq seq = Return (seq, seq, (Z.of_nat (length seq) * best)%Z).
Proof.
  intros Hne Hfuel.
  destruct (run_needleman_wunsch_spec self seq seq)
    as (Tb & Sc & Hrun & [_ HSc] & HTb).
  unfold align, _get_aligned_sequences.
  destruct seq as [| c s0] eqn:Hseq; [congruence |]. rewrite <- Hseq in *.
  replace (is_empty seq) with false by (rewrite Hseq; reflexivity).
  cbn [orb]. rewrite Hrun, bind_Return. cbn beta iota.
  rewrite (traceback_loop_identical seq Tb HTb), bind_Return by lia.
  cbn beta iota. rewrite HSc, bind_Return by trivial.
  rewrite cell_identical, firstn_all. simpl. rewrite !app_nil_r. reflexivity.
Qed.
End ScoreBounds.

(** X12. Aligning a non-empty sequence with itself: when the flat policy
    scores a mismatch no higher than a match, and two gaps no higher than a
    match, [align] returns the sequence itself twice, without gaps, and the
    score is the match score times the length. *)
Theorem align_identical_sequences (self : NeedlemanWunsch)
  (fuel : nat) (seq : str) :
  (mismatch_score self <= match_score self)%Z ->
  (2 * gap_penalty self <= match_score self)%Z ->
  seq <> [] -> length seq <= fuel ->
  align self fuel seq seq =
    Return (seq, seq, (Z.of_nat (length seq) * match_score self)%Z).
Proof.
  intros Hmis Hgap Hne Hfuel.
  apply (align_identical self (match_score self)); try assumption.
  - intros x y. simpl. unfold NeedlemanWunsch_score_match_mismatch.
    destruct (Ascii.eqb x y); lia.
  - intros x. simpl. unfold NeedlemanWunsch_score_match_mismatch.
    rewrite Ascii.eqb_refl. reflexivity.
Qed.

Lemma align_identical_sequences_witness :
  align (mkNeedlemanWunsch 2 (-1) (-2)) 4 (lit "ATCG") (lit "ATCG") =
    Return (lit "ATCG", lit "ATCG", (Z.of_nat (length (lit "ATCG")) * 2)%Z).
Proof.
  refine (align_identical_sequences (mkNeedlemanWunsch 2 (-1) (-2)) 4
            (lit "ATCG") _ _ _ _); simpl; try lia; discriminate.
Defined.

(** X13. Bounds on the score of two non-empty sequences of lengths [n] and
    [m].  It is at least [n + m] gap penalties.  If no pair of characters
    scores more than [best], and two gaps do not either, it is at most
    [best] for each symbol of the shorter sequence and one gap penalty for
    each symbol that the longer sequence has in excess. *)
Theorem align_score_bounds {Self : Type} `{!Aligner Self} (self : Self)
  (best : Z) (fuel : nat) (seq1 seq2 : str) :
  (forall x y, (_score_match_mismatch self x y <= best)%Z) ->
  (2 * gap_penalty (base self) <= best)%Z ->
  seq1 <> [] -> seq2 <> [] -> length seq1 + length seq2 <= fuel ->
  exists a1 a2 score,
    align self fuel seq1 seq2 = Return (a1, a2, score) /\
    (Z.of_nat (length seq1 + length seq2) * gap_penalty (base self)
     <= score)%Z /\
    (score <=
     best * Z.of_nat (Nat.min (length seq1) (length seq2)) +
     gap_penalty (base self) *
       Z.of_nat (Nat.max (length seq1) (length seq2)
                 - Nat.min (length seq1) (length seq2)))%Z.
Proof.
  intros Hbest Hgap Hne1 Hne2 Hfuel.
  destruct (align_spec self fuel seq1 seq2 Hne1 Hne2 Hfuel)
    as (_ & _ & cols & _ & _ & Halign & _).
  do 3 eexists. split; [exact Halign |]. split.
  - apply cell_ge_all_gaps.
  - apply (cell_le_score_bound self best Hbest Hgap).
Qed.

Lemma align_score_bounds_witness :
  exists a1 a2 score,
    align (mkNeedlemanWunsch 1 (-1) (-2)) 7 (lit "WHY") (lit "WHAT") =
      Return (a1, a2, score) /\
    (-14 <= score)%Z /\ (score <= 1)%Z.
Proof.
  refine (align_score_bounds (mkNeedlemanWunsch 1 (-1) (-2)) 1 7
            (lit "WHY") (lit "WHAT") _ _ _ _ _).
  - intros x y. simpl. unfold NeedlemanWunsch_score_match_mismatch. simpl.
    destruct (Ascii.eqb x y); lia.
  - simpl. lia.
  - discriminate.
  - discriminate.
  - simpl. lia.
Defined.

(** ** The transition/transversion policy and the case of letters *)




(** X15. The transition/transversion policy rejects no character: against a
    different character, one that is not a nucleotide letter in either case
    scores the transversion penalty, on whichever side it stands. *)
Theorem advanced_score_unknown_symbol (self : NeedlemanWunschAdvanced)
  (char1 char2 : ascii) :
  char1 <> char2 ->
  upper char1 ∉ ["A"; "G"; "C"; "T"]%char ->
  NeedlemanWunschAdvanced_score_match_mismatch self char1 char2 =
    transversion_penalty self /\
  NeedlemanWunschAdvanced_score_match_mismatch self char2 char1 =
    transversion_penalty self.
Proof.
  intros Hne Hout.
  assert (HA : Ascii.eqb (upper char1) "A" = false).
  { apply Ascii.eqb_neq. intros Heq. apply Hout. rewrite Heq. repeat constructor. }
  assert (HG : Ascii.eqb (upper char1) "G" = false).
  { apply Ascii.eqb_neq. intros Heq. apply Hout. rewrite Heq. repeat constructor. }
  assert (HC : Ascii.eqb (upper char1) "C" = false).
  { apply Ascii.eqb_neq. intros Heq. apply Hout. rewrite Heq. repeat constructor. }
  assert (HT : Ascii.eqb (upper char1) "T" = false).
  { apply Ascii.eqb_neq. intros Heq. apply Hout. rewrite Heq. repeat constructor. }
  unfold NeedlemanWunschAdvanced_score_match_mismatch.
  rewrite (Ascii.eqb_sym char2 char1).
  destruct (Ascii.eqb_spec char1 char2) as [Heq | _]; [congruence |].
  unfold transitions, pair_eqb. simpl.
  rewrite HA, HG, HC, HT, !andb_false_r. simpl. split; reflexivity.
Qed.

Lemma advanced_score_unknown_symbol_witness :
  NeedlemanWunschAdvanced_score_match_mismatch
    (NeedlemanWunschAdvanced_init 2 (-1) (-2) (-1)) "N" "A" = (-2)%Z /\
  NeedlemanWunschAdvanced_score_match_mismatch
    (NeedlemanWunschAdvanced_init 2 (-1) (-2) (-1)) "A" "N" = (-2)%Z.
Proof.
  refine (advanced_score_unknown_symbol
            (NeedlemanWunschAdvanced_init 2 (-1) (-2) (-1)) "N" "A" _ _).
  - discriminate.
  - apply (bool_decide_unpack _). reflexivity.
Defined.

(** ** The convenience function *)

(** X16. Called with two sequences and no keyword argument,
    [align_sequences] raises [ValueError] if one of them is empty; given a
    non-empty sequence twice, it returns that sequence twice as the
    alignment, with twice its length as the score. *)
Theorem align_sequences_defaults (fuel : nat) (seq : str) :
  length seq <= fuel ->
  align_sequences fuel [] seq None None None = Raise ValueError /\
  align_sequences fuel seq [] None None None = Raise ValueError /\
  (seq <> [] ->
   align_sequences fuel seq seq None None None =
     Return (mkSequencesResult (seq, seq) (2 * Z.of_nat (length seq))%Z)).
Proof.
  intros Hfuel. split; [reflexivity |]. split.
  { unfold align_sequences, align. destruct seq; reflexivity. }
  intros Hne. unfold align_sequences. cbn [default].
  rewrite (align_identical (mkNeedlemanWunsch 2 (-1) (-2)) 2%Z);
    try assumption.
  - rewrite bind_Return. cbn beta iota. do 2 f_equal. lia.
  - intros x y. simpl. unfold NeedlemanWunsch_score_match_mismatch. simpl.
    destruct (Ascii.eqb x y); lia.
  - simpl. lia.
  - intros x. simpl. unfold NeedlemanWunsch_score_match_mismatch.
    rewrite Ascii.eqb_refl. reflexivity.
Qed.

Lemma align_sequences_defaults_witness :
  align_sequences 4 [] (lit "ATCG") None None None = Raise ValueError /\
  align_sequences 4 (lit "ATCG") [] None None None = Raise ValueError /\
  align_sequences 4 (lit "ATCG") (lit "ATCG") None None None =
    Return (mkSequencesResult (lit "ATCG", lit "ATCG") 8%Z).
Proof.
  destruct (align_sequences_defaults 4 (lit "ATCG")) as (H1 & H2 & H3);
    [simpl; lia |].
  split; [exact H1 |]. split; [exact H2 |]. apply H3. discriminate.
Defined.
